(** * Lazy sequence combinators of [adapters.go]

    A Go [iter.Seq[T]] is a function [func(yield func(T) bool)].  Calling it
    runs the producer, which may call [yield] any number of times and looks at
    the boolean every call returns.  We embed such a function body as a
    resumption: a finite tree whose nodes are the calls of [yield] (with one
    subtree per answer), the visits a source records, and the final return.
    A [for v := range s] loop and [iter.Pull] are interpreters of that tree,
    so the combinators below are transcribed statement by statement. *)

From Stdlib Require Import String ZArith List Bool Lia Arith.
Import ListNotations.
Local Open Scope Z_scope.

(** ** Go's [int]

    [int] is taken at its 64-bit size. *)

Module GoInt.

Definition bits : Z := 64.
Definition min_int : Z := - 2 ^ (bits - 1).
Definition max_int : Z := 2 ^ (bits - 1) - 1.

(** Two's complement wrap-around of a mathematical integer into [int]. *)
Definition wrap (z : Z) : Z :=
  (z - min_int) mod 2 ^ bits + min_int.

Definition in_range (z : Z) : Prop := min_int <= z <= max_int.

(** [count++] *)
Definition incr (count : Z) : Z := wrap (count + 1).

End GoInt.

(** ** Resumptions *)

Module Coro.

(** Why a run stopped abnormally: a run-time panic of Go, or the fuel of an
    unbounded [for { }] loop of the model ran out. *)
Inductive Fault : Type := Panicked | OutOfFuel.

Section Co.

(** [E]: what gets recorded in the world (visits of sources, deliveries to
    the final consumer).  [O]: the element type of the enclosing
    [func(yield func(O) bool)].  [A]: the result. *)
Context {E : Type}.

Inductive Co (O A : Type) : Type :=
| Ret (a : A)
| Abort (f : Fault)
| Log (e : E) (k : Co O A)
| Yld (o : O) (k : bool -> Co O A).

End Co.

Arguments Co : clear implicits.
Arguments Ret {E O A} a.
Arguments Abort {E O A} f.
Arguments Log {E O A} e k.
Arguments Yld {E O A} o k.

Section Ops.

Context {E : Type}.

Fixpoint bind {O A B : Type} (m : Co E O A) (f : A -> Co E O B) : Co E O B :=
  match m with
  | Ret a => f a
  | Abort r => Abort r
  | Log e k => Log e (bind k f)
  | Yld o k => Yld o (fun ok => bind (k ok) f)
  end.

(** [yield(v)] *)
Definition yield {O : Type} (v : O) : Co E O bool := Yld v (fun ok => Ret ok).

(** One recorded event. *)
Definition record {O : Type} (e : E) : Co E O unit := Log e (Ret tt).

End Ops.

End Coro.

Import Coro.

Declare Scope co_scope.
Delimit Scope co_scope with co.
Notation "x <- m ;; k" := (bind m (fun x => k))
  (at level 61, m at next level, right associativity) : co_scope.
Notation "' p <- m ;; k" := (bind m (fun x => match x with p => k end))
  (at level 61, p pattern, m at next level, right associativity) : co_scope.
Notation "m ;; k" := (bind m (fun _ => k))
  (at level 61, right associativity) : co_scope.
Local Open Scope co_scope.

(** ** Sequences and loops over them *)

Module Iter.

(** How a loop body ends: it falls through to the next iteration, or it
    executes [return] (which leaves the loop and the enclosing function; no
    combinator has a statement after its loop). *)
Inductive Flow : Type := Next | Return.

Section Seq.

Context {E : Type}.

(** [iter.Seq[T]]: the body of a [func(yield func(T) bool)]. *)
Definition Seq (T : Type) : Type := Co E T unit.

(** [iter.Seq2[K, V]]: [yield] takes two values. *)
Definition Seq2 (K V : Type) : Type := Seq (K * V).

(** The iterator function after its [yield] answered [false]: it is expected
    to return; the Go run time panics if it calls [yield] once more
    ("range function continued iteration after function for loop body
    returned false"). *)
Fixpoint exited {T O : Type} (s : Seq T) : Co E O unit :=
  match s with
  | Ret _ => Ret tt
  | Abort r => Abort r
  | Log e k => Log e (exited k)
  | Yld _ _ => Abort Panicked
  end.

(** [for v := range s { body }] with the loop-carried variables [l].  The
    result says how the loop ended: [Next] when the iterator ran out (the
    statement after the loop is next), [Return] when the body returned. *)
Fixpoint for_range {T O L : Type} (s : Seq T)
    (body : T -> L -> Co E O (Flow * L)) (l : L) : Co E O (Flow * L) :=
  match s with
  | Ret _ => Ret (Next, l)
  | Abort r => Abort r
  | Log e k => Log e (for_range k body l)
  | Yld v k =>
      r <- body v l ;;
      match r with
      | (Next, l') => for_range (k true) body l'
      | (Return, l') => exited (k false) ;; Ret (Return, l')
      end
  end.

(** [for _, v := range slice { body }] *)
Fixpoint for_slice {T O L : Type} (s : list T)
    (body : T -> L -> Co E O (Flow * L)) (l : L) : Co E O (Flow * L) :=
  match s with
  | [] => Ret (Next, l)
  | v :: s' =>
      r <- body v l ;;
      match r with
      | (Next, l') => for_slice s' body l'
      | (Return, l') => Ret (Return, l')
      end
  end.

(** [slices.Values]: [for _, v := range s { if !yield(v) { return } }] *)
Fixpoint Values {T : Type} (s : list T) : Seq T :=
  match s with
  | [] => Ret tt
  | v :: s' => Yld v (fun ok => if ok then Values s' else Ret tt)
  end.

(** A source that records every visit before offering the element:
    [for _, v := range s { visits++; if !yield(v) { return } }] *)
Fixpoint Recording {T : Type} (visit : E) (s : list T) : Seq T :=
  match s with
  | [] => Ret tt
  | v :: s' =>
      Log visit (Yld v (fun ok => if ok then Recording visit s' else Ret tt))
  end.

(** *** [iter.Pull]

    [iter.Pull(s)] runs [s] as a coroutine.  The handle is where that
    coroutine stands: not started yet, suspended inside a call of [yield]
    (holding what [s] does with either answer), or over. *)
Inductive Handle (T : Type) : Type :=
| Fresh (s : Seq T)
| Suspended (k : bool -> Seq T)
| Over.

Arguments Fresh {T} s.
Arguments Suspended {T} k.
Arguments Over {T}.

Definition Pull {T : Type} (s : Seq T) : Handle T := Fresh s.

(** Run the coroutine up to its next call of [yield], or to its end. *)
Fixpoint advance {T O : Type} (s : Seq T) : Co E O (option T * Handle T) :=
  match s with
  | Ret _ => Ret (None, Over)
  | Abort r => Abort r
  | Log e k => Log e (advance k)
  | Yld v k => Ret (Some v, Suspended k)
  end.

(** [v, ok := next()]: [Some v] for [(v, true)], [None] for [(zero, false)]. *)
Definition next {T O : Type} (h : Handle T) : Co E O (option T * Handle T) :=
  match h with
  | Fresh s => advance s
  | Suspended k => advance (k true)
  | Over => Ret (None, Over)
  end.

(** The coroutine after [stop]: its pending [yield] answers [false], and so
    does every later one, until the function returns. *)
Fixpoint stopped {T O : Type} (s : Seq T) : Co E O unit :=
  match s with
  | Ret _ => Ret tt
  | Abort r => Abort r
  | Log e k => Log e (stopped k)
  | Yld _ k => stopped (k false)
  end.

(** [stop()]: a coroutine that never started is not run at all. *)
Definition stop {T O : Type} (h : Handle T) : Co E O unit :=
  match h with
  | Fresh _ => Ret tt
  | Suspended k => stopped (k false)
  | Over => Ret tt
  end.

End Seq.

Arguments Seq : clear implicits.
Arguments Seq2 : clear implicits.
Arguments Handle : clear implicits.
Arguments Fresh {E T} s.
Arguments Suspended {E T} k.
Arguments Over {E T}.

End Iter.

Import Iter.

(** ** The combinators of [adapters.go] *)

Module Adapters.

Section Combinators.

Context {E : Type}.

Definition Filter {T : Type} (s : Seq E T) (pred : T -> bool) : Seq E T :=
  for_range s (fun v (_ : unit) =>
    if pred v then
      ok <- yield v ;;
      if negb ok then Ret (Return, tt) else Ret (Next, tt)
    else Ret (Next, tt)) tt ;;
  Ret tt.

Definition Filter2 {K V : Type} (s : Seq2 E K V) (pred : K -> V -> bool)
    : Seq2 E K V :=
  for_range s (fun '(k, v) (_ : unit) =>
    if pred k v then
      ok <- yield (k, v) ;;
      if negb ok then Ret (Return, tt) else Ret (Next, tt)
    else Ret (Next, tt)) tt ;;
  Ret tt.

Definition Map {T R : Type} (s : Seq E T) (transform : T -> R) : Seq E R :=
  for_range s (fun v (_ : unit) =>
    let result := transform v in
    ok <- yield result ;;
    if negb ok then Ret (Return, tt) else Ret (Next, tt)) tt ;;
  Ret tt.

Definition Map2 {K1 V1 K2 V2 : Type} (s : Seq2 E K1 V1)
    (transform : K1 -> V1 -> K2 * V2) : Seq2 E K2 V2 :=
  for_range s (fun '(k, v) (_ : unit) =>
    let '(k2, v2) := transform k v in
    ok <- yield (k2, v2) ;;
    if negb ok then Ret (Return, tt) else Ret (Next, tt)) tt ;;
  Ret tt.

(** [Reduce] is not itself a [func(yield)]: it has no [yield] to call, so
    its element type is arbitrary. *)
Definition Reduce {T R O : Type} (s : Seq E T) (initial : R)
    (reducer : R -> T -> R) : Co E O R :=
  ' (_, result) <- for_range s (fun v result =>
    Ret (Next, reducer result v)) initial ;;
  Ret result.

Definition Take {T : Type} (s : Seq E T) (n : Z) : Seq E T :=
  for_range s (fun v count =>
    if (count >=? n)%Z then Ret (Return, count)
    else
      ok <- yield v ;;
      if negb ok then Ret (Return, count)
      else Ret (Next, GoInt.incr count)) 0%Z ;;
  Ret tt.

Definition Take2 {K V : Type} (s : Seq2 E K V) (n : Z) : Seq2 E K V :=
  for_range s (fun '(k, v) count =>
    if (count >=? n)%Z then Ret (Return, count)
    else
      ok <- yield (k, v) ;;
      if negb ok then Ret (Return, count)
      else Ret (Next, GoInt.incr count)) 0%Z ;;
  Ret tt.

Definition Skip {T : Type} (s : Seq E T) (n : Z) : Seq E T :=
  for_range s (fun v count =>
    if (count >=? n)%Z then
      ok <- yield v ;;
      if negb ok then Ret (Return, count)
      else Ret (Next, GoInt.incr count)
    else Ret (Next, GoInt.incr count)) 0%Z ;;
  Ret tt.

Definition Skip2 {K V : Type} (s : Seq2 E K V) (n : Z) : Seq2 E K V :=
  for_range s (fun '(k, v) count =>
    if (count >=? n)%Z then
      ok <- yield (k, v) ;;
      if negb ok then Ret (Return, count)
      else Ret (Next, GoInt.incr count)
    else Ret (Next, GoInt.incr count)) 0%Z ;;
  Ret tt.

(** [Zip]'s [for { }] has no bound of its own; [fuel] bounds the number of
    iterations of the model. *)
Fixpoint Zip_loop {T U : Type} (fuel : nat) (h1 : Handle E T)
    (h2 : Handle E U) : Co E (T * U) (Handle E T * Handle E U) :=
  match fuel with
  | O => Abort OutOfFuel
  | S fuel' =>
      ' (r1, h1) <- next h1 ;;
      match r1 with
      | None => Ret (h1, h2)
      | Some v1 =>
          ' (r2, h2) <- next h2 ;;
          match r2 with
          | None => Ret (h1, h2)
          | Some v2 =>
              ok <- yield (v1, v2) ;;
              if negb ok then Ret (h1, h2)
              else Zip_loop fuel' h1 h2
          end
      end
  end.

(** The deferred calls run last in, first out: [stop2()], then [stop1()]. *)
Definition Zip {T U : Type} (fuel : nat) (s1 : Seq E T) (s2 : Seq E U)
    : Seq2 E T U :=
  let h1 := Pull s1 in
  let h2 := Pull s2 in
  ' (h1, h2) <- Zip_loop fuel h1 h2 ;;
  stop h2 ;;
  stop h1.

Definition FlatMap {T R : Type} (s : Seq E T) (transform : T -> Seq E R)
    : Seq E R :=
  for_range s (fun v (_ : unit) =>
    let innerSeq := transform v in
    for_range innerSeq (fun innerV (_ : unit) =>
      ok <- yield innerV ;;
      if negb ok then Ret (Return, tt) else Ret (Next, tt)) tt) tt ;;
  Ret tt.

Definition FlatMap2 {K1 V1 K2 V2 : Type} (s : Seq2 E K1 V1)
    (transform : K1 -> V1 -> Seq2 E K2 V2) : Seq2 E K2 V2 :=
  for_range s (fun '(k1, v1) (_ : unit) =>
    let innerSeq := transform k1 v1 in
    for_range innerSeq (fun '(k2, v2) (_ : unit) =>
      ok <- yield (k2, v2) ;;
      if negb ok then Ret (Return, tt) else Ret (Next, tt)) tt) tt ;;
  Ret tt.

(** The dynamic type of an item of [iter.Seq[any]], as [Flatten[T]]'s type
    switch sees it, for a target type [T] that is not an interface type:
    the five types of the [case]s, a pointer being [None] when [nil], and
    [OtherItem] for a value of any other type (or the [nil] interface). *)
Inductive any (T Other : Type) : Type :=
| SeqItem (v : Seq E T)
| SeqPtrItem (v : option (Seq E T))
| SliceItem (v : list T)
| SlicePtrItem (v : option (list T))
| ValueItem (v : T)
| OtherItem (v : Other).

Arguments SeqItem {T Other} v.
Arguments SeqPtrItem {T Other} v.
Arguments SliceItem {T Other} v.
Arguments SlicePtrItem {T Other} v.
Arguments ValueItem {T Other} v.
Arguments OtherItem {T Other} v.

Definition Flatten {T Other : Type} (s : Seq E (any T Other)) : Seq E T :=
  for_range s (fun item (_ : unit) =>
    match item with
    | SeqItem v =>
        for_range v (fun innerV (_ : unit) =>
          ok <- yield innerV ;;
          if negb ok then Ret (Return, tt) else Ret (Next, tt)) tt
    | SeqPtrItem v =>
        match v with
        | Some v' =>
            for_range v' (fun innerV (_ : unit) =>
              ok <- yield innerV ;;
              if negb ok then Ret (Return, tt) else Ret (Next, tt)) tt
        | None => Ret (Next, tt)
        end
    | SliceItem v =>
        for_slice v (fun innerV (_ : unit) =>
          ok <- yield innerV ;;
          if negb ok then Ret (Return, tt) else Ret (Next, tt)) tt
    | SlicePtrItem v =>
        match v with
        | Some v' =>
            for_slice v' (fun innerV (_ : unit) =>
              ok <- yield innerV ;;
              if negb ok then Ret (Return, tt) else Ret (Next, tt)) tt
        | None => Ret (Next, tt)
        end
    | ValueItem v =>
        ok <- yield v ;;
        if negb ok then Ret (Return, tt) else Ret (Next, tt)
    | OtherItem _ => Ret (Next, tt)
    end) tt ;;
  Ret tt.

(** A fallible transform returns [(result, err)]; [err] is [None] for
    [nil]. *)
Definition FilterMap {T R error : Type} (s : Seq E T)
    (transform : T -> R * option error) : Seq E R :=
  for_range s (fun v (_ : unit) =>
    let '(result, err) := transform v in
    match err with
    | None =>
        ok <- yield result ;;
        if negb ok then Ret (Return, tt) else Ret (Next, tt)
    | Some _ => Ret (Next, tt)
    end) tt ;;
  Ret tt.

Definition FilterMap2 {K1 V1 K2 V2 error : Type} (s : Seq2 E K1 V1)
    (transform : K1 -> V1 -> K2 * V2 * option error) : Seq2 E K2 V2 :=
  for_range s (fun '(k1, v1) (_ : unit) =>
    let '(k2, v2, err) := transform k1 v1 in
    match err with
    | None =>
        ok <- yield (k2, v2) ;;
        if negb ok then Ret (Return, tt) else Ret (Next, tt)
    | Some _ => Ret (Next, tt)
    end) tt ;;
  Ret tt.

End Combinators.

Arguments any : clear implicits.
Arguments SeqItem {E T Other} v.
Arguments SeqPtrItem {E T Other} v.
Arguments SliceItem {E T Other} v.
Arguments SlicePtrItem {E T Other} v.
Arguments ValueItem {E T Other} v.
Arguments OtherItem {E T Other} v.

End Adapters.

Import Adapters.

(** ** Driving a sequence *)

Module Drive.

(** What a run leaves in the world: the visits the sources recorded (each
    source under its own number) and the elements handed to the consumer. *)
Inductive Event (O : Type) : Type :=
| Visit (src : nat)
| Out (o : O).

Arguments Visit {O} src.
Arguments Out {O} o.

Inductive Outcome (A : Type) : Type :=
| Done (a : A)
| Failed (f : Fault).

Arguments Done {A} a.
Arguments Failed {A} f.

Section Observe.

Context {E : Type}.

(** A whole program has no enclosing [yield]. *)
Fixpoint trace {A : Type} (m : Co E Empty_set A) : list E :=
  match m with
  | Ret _ => []
  | Abort _ => []
  | Log e k => e :: trace k
  | Yld o _ => match o with end
  end.

Fixpoint outcome {A : Type} (m : Co E Empty_set A) : Outcome A :=
  match m with
  | Ret a => Done a
  | Abort f => Failed f
  | Log _ k => outcome k
  | Yld o _ => match o with end
  end.

End Observe.

Section Consumers.

Context {T : Type}.

(** Sources record visits by source number; under observation these are
    the [Visit] events of the run. *)
Fixpoint observed {A : Type} (m : Co nat T A) : Co (Event T) T A :=
  match m with
  | Ret a => Ret a
  | Abort f => Abort f
  | Log src k => Log (Visit src) (observed k)
  | Yld o k => Yld o (fun ok => observed (k ok))
  end.

(** [for v := range s { if !consumer(v) { return } }] where the consumer is
    a step function on its own state [C], and every element handed to it is
    recorded. *)
Definition drive {C : Type} (s : Seq nat T)
    (consumer : T -> C -> bool * C) (c : C) : Co (Event T) Empty_set C :=
  ' (_, c) <- for_range (observed s) (fun v c =>
    record (Out v) ;;
    let '(ok, c') := consumer v c in
    if negb ok then Ret (Return, c') else Ret (Next, c')) c ;;
  Ret c.

(** The consumer that always continues. *)
Definition always (_ : T) (c : unit) : bool * unit := (true, c).

(** The consumer that answers stop on receiving its [k]-th element; its
    state is the number of elements received so far. *)
Definition stop_at (k : nat) (_ : T) (received : nat) : bool * nat :=
  (negb (Nat.eqb (S received) k), S received).

(** The elements handed to the consumer, in order. *)
Fixpoint outputs (tr : list (Event T)) : list T :=
  match tr with
  | [] => []
  | Out o :: tr' => o :: outputs tr'
  | Visit _ :: tr' => outputs tr'
  end.

(** How many elements source [src] produced. *)
Fixpoint visits (src : nat) (tr : list (Event T)) : nat :=
  match tr with
  | [] => O
  | Visit i :: tr' => (if Nat.eqb i src then 1 else 0) + visits src tr'
  | Out _ :: tr' => visits src tr'
  end.

(** Driving to completion with the always-continue consumer. *)
Definition collect (s : Seq nat T) : list T :=
  outputs (trace (drive s always tt)).

End Consumers.

End Drive.

Import Drive.

(** ** Reference runs

    What the spec says a run looks like, written down independently of the
    combinators, together with the combinators' loops entered at an
    arbitrary point; the theorems below compare the two. *)

Module Reference.

(** The body of a loop that passes every element on:
    [if !yield(v) { return }]. *)
Definition pass_on {R : Type} (v : R) (_ : unit) : Co nat R (Flow * unit) :=
  ok <- yield v ;;
  if negb ok then Ret (Return, tt) else Ret (Next, tt).

Section Shapes.

Context {E : Type}.

(** A computation that never calls [yield], whatever happens. *)
Fixpoint silent {O A : Type} (m : Co E O A) : Prop :=
  match m with
  | Ret _ => True
  | Abort _ => True
  | Log _ k => silent k
  | Yld _ _ => False
  end.

End Shapes.

Section Sources.

Context {T : Type}.

(** What a sequence produces when every [yield] answers [true]. *)
Fixpoint elements (s : Seq nat T) : list T :=
  match s with
  | Ret _ => []
  | Abort _ => []
  | Log _ k => elements k
  | Yld v k => v :: elements (k true)
  end.

(** The sequence runs to its return when always continued: it does not
    panic on the way. *)
Fixpoint completes (s : Seq nat T) : Prop :=
  match s with
  | Ret _ => True
  | Abort _ => False
  | Log _ k => completes k
  | Yld _ k => completes (k true)
  end.

(** [Take]'s loop entered with [count] already at some value. *)
Definition Take_from (s : Seq nat T) (n count : Z) : Seq nat T :=
  for_range s (fun v count =>
    if (count >=? n)%Z then Ret (Return, count)
    else
      ok <- yield v ;;
      if negb ok then Ret (Return, count)
      else Ret (Next, GoInt.incr count)) count ;;
  Ret tt.

End Sources.

(** A slice as a source, recording its visits under a number or not at
    all. *)
Definition source {X : Type} (r : option nat) (l : list X) : Seq nat X :=
  match r with
  | Some src => Recording src l
  | None => Values l
  end.

Definition mark {O : Type} (r : option nat) : list (Event O) :=
  match r with
  | Some src => [Visit src]
  | None => []
  end.

(** What [next] finds when it runs the coroutine [s]: the element at which
    it suspends, or its end; nothing when it panics first. *)
Fixpoint peek {X : Type} (s : Seq nat X)
    : option (option X * Handle nat X) :=
  match s with
  | Ret _ => Some (None, Over)
  | Abort _ => None
  | Log _ k => peek k
  | Yld v k => Some (Some v, Suspended k)
  end.

(** What is left of the coroutine behind a handle. *)
Definition rest {X : Type} (h : Handle nat X) : Seq nat X :=
  match h with
  | Fresh s => s
  | Suspended k => k true
  | Over => Ret tt
  end.

(** A slice source suspended in the [yield] before the elements [l]. *)
Definition parked {X : Type} (r : option nat) (l : list X) : Handle nat X :=
  Suspended (fun ok => if ok then source r l else Ret tt).

(** The handle stands before the elements [l] of the source. *)
Definition before {X : Type} (r : option nat) (l : list X)
    (h : Handle nat X) : Prop :=
  h = Fresh (source r l) \/ h = parked r l \/ (l = [] /\ h = Over).

Section ZipRun.

Context {T U C : Type} (consumer : T * U -> C -> bool * C).

(** [Zip] from the handles onwards. *)
Definition Zip_from (fuel : nat) (h1 : Handle nat T) (h2 : Handle nat U)
    : Seq2 nat T U :=
  ' (h1, h2) <- Zip_loop fuel h1 h2 ;;
  stop h2 ;;
  stop h1.

(** The run as the spec describes it: strict alternation, the first source
    first, a pair handed over when both had an element. *)
Fixpoint zip_run (r1 r2 : option nat) (A : list T) (B : list U) (c : C)
    : list (Event (T * U)) * C :=
  match A with
  | [] => ([], c)
  | a :: A' =>
      match B with
      | [] => (mark r1, c)
      | b :: B' =>
          let '(ok, c') := consumer (a, b) c in
          if ok then
            let '(tr, c'') := zip_run r1 r2 A' B' c' in
            (mark r1 ++ mark r2 ++ Out (a, b) :: tr, c'')
          else (mark r1 ++ mark r2 ++ [Out (a, b)], c')
      end
  end.

End ZipRun.

Section FlatMapRun.

Context {T R C : Type} (consumer : R -> C -> bool * C).

(** Hand the elements of a slice to the consumer until it answers stop:
    the deliveries, whether it still continues, and its final state. *)
Fixpoint feed (ys : list R) (c : C) : list (Event R) * bool * C :=
  match ys with
  | [] => ([], true, c)
  | y :: ys' =>
      let '(ok, c') := consumer y c in
      if ok then
        let '(tr, go, c'') := feed ys' c' in (Out y :: tr, go, c'')
      else ([Out y], false, c')
  end.

(** The run as the spec describes it: visit an outer element, hand over all
    of its inner sequence, only then visit the next outer element; a stop
    ends everything. *)
Fixpoint flatmap_run (r : option nat) (t : T -> list R) (l : list T) (c : C)
    : list (Event R) * C :=
  match l with
  | [] => ([], c)
  | x :: l' =>
      let '(tr, go, c') := feed (t x) c in
      if go then
        let '(tr', c'') := flatmap_run r t l' c' in
        (mark r ++ tr ++ tr', c'')
      else (mark r ++ tr, c')
  end.

(** The iterator function of the driven sequence after a stop. *)
Definition wind_down (s : Seq nat R) : Co (Event R) Empty_set unit :=
  exited (observed s).

(** What the outer loop does once the inner loop over one element is done,
    the source standing before the elements [l]. *)
Definition FlatMap_step (r : option nat) (t : T -> list R) (l : list T)
    (fl : Flow * unit) : Co nat R (Flow * unit) :=
  match fl with
  | (Next, l') =>
      for_range (source r l)
        (fun v (_ : unit) => for_range (Values (t v)) pass_on tt) l'
  | (Return, l') => exited (T:=T) (Ret tt) ;; Ret (Return, l')
  end.

End FlatMapRun.

Section Items.

Context {T Other : Type}.

(** What the spec lets one item contribute: the elements of a nested
    sequence or list, nothing for an absent one, the scalar itself, and
    nothing for an item of any other shape. *)
Definition item_elements (item : any nat T Other) : list T :=
  match item with
  | SeqItem v => collect v
  | SeqPtrItem (Some v) => collect v
  | SeqPtrItem None => []
  | SliceItem l => l
  | SlicePtrItem (Some l) => l
  | SlicePtrItem None => []
  | ValueItem v => [v]
  | OtherItem _ => []
  end.

Definition item_completes (item : any nat T Other) : Prop :=
  match item with
  | SeqItem v => completes v
  | SeqPtrItem (Some v) => completes v
  | _ => True
  end.

(** What the outer loop does after the item before the rest [k]. *)
Definition Flatten_step (k : bool -> Seq nat (any nat T Other))
    (fl : Flow * unit) : Co nat T (Flow * unit) :=
  match fl with
  | (Next, l') =>
      for_range (k true) (fun item (_ : unit) =>
        match item with
        | SeqItem v => for_range v pass_on tt
        | SeqPtrItem v =>
            match v with
            | Some v' => for_range v' pass_on tt
            | None => Ret (Next, tt)
            end
        | SliceItem v => for_slice v pass_on tt
        | SlicePtrItem v =>
            match v with
            | Some v' => for_slice v' pass_on tt
            | None => Ret (Next, tt)
            end
        | ValueItem v => pass_on v tt
        | OtherItem _ => Ret (Next, tt)
        end) l'
  | (Return, l') => exited (k false) ;; Ret (Return, l')
  end.

End Items.

Section Kept.

Context {T R error : Type}.

(** What the spec lets one element contribute: the transformed value when
    the transform succeeds, nothing when it fails. *)
Definition kept (transform : T -> R * option error) (v : T) : list R :=
  match transform v with
  | (result, None) => [result]
  | (_, Some _) => []
  end.

End Kept.

(** The transform of the example: fails on [3], squares otherwise. *)
Definition square_unless_3 (n : Z) : Z * option unit :=
  if (n =? 3)%Z then (0%Z, Some tt) else ((n * n)%Z, None).

(** The mixed sequence of the documentation, with an item of another type
    (a string) added. *)
Definition mixed : list (any nat Z string) :=
  [ SliceItem [1; 2; 3]%Z;
    SeqItem (Yld 4%Z (fun _ => Yld 5%Z (fun _ => Ret tt)));
    ValueItem 6%Z;
    OtherItem "six and a half"%string;
    SlicePtrItem (Some [7; 8]%Z);
    SeqPtrItem None;
    SlicePtrItem None;
    SliceItem [9; 10]%Z ].

(** A mixed sequence whose nested sequences look at what [yield]
    answers. *)
Definition mixed_values : list (any nat Z string) :=
  [ SliceItem [1; 2; 3]%Z;
    SeqItem (Values [4; 5]%Z);
    ValueItem 6%Z;
    OtherItem "six and a half"%string;
    SeqPtrItem (Some (Values [7; 8]%Z));
    SlicePtrItem None;
    SlicePtrItem (Some [9; 10]%Z) ].

Section Protocol.

Context {E : Type}.

(** The computation returns without calling [yield] and without a fault. *)
Fixpoint halts {O A : Type} (m : Co E O A) : Prop :=
  match m with
  | Ret _ => True
  | Abort _ => False
  | Log _ k => halts k
  | Yld _ _ => False
  end.

(** A sequence that keeps the protocol: it does not fault, and once a
    [yield] has answered [false] it returns without calling [yield]
    again. *)
Fixpoint obedient {T : Type} (s : Seq E T) : Prop :=
  match s with
  | Ret _ => True
  | Abort _ => False
  | Log _ k => obedient k
  | Yld _ k => obedient (k true) /\ halts (k false)
  end.

(** A piece of a loop body that executes [return] without calling
    [yield]. *)
Fixpoint quits {O L : Type} (m : Co E O (Flow * L)) : Prop :=
  match m with
  | Ret (fl, _) => fl = Return
  | Abort _ => False
  | Log _ k => quits k
  | Yld _ _ => False
  end.

(** A loop body that keeps the protocol: no fault, and after a [yield]
    that answered [false] it executes [return]. *)
Fixpoint polite {O L : Type} (m : Co E O (Flow * L)) : Prop :=
  match m with
  | Ret _ => True
  | Abort _ => False
  | Log _ k => polite k
  | Yld _ k => polite (k true) /\ quits (k false)
  end.

(** Extensional equality of computations: the same nodes, and the same
    continuation for every answer. *)
Inductive sim {O A : Type} : Co E O A -> Co E O A -> Prop :=
| sim_Ret (a : A) : sim (Ret a) (Ret a)
| sim_Abort (f : Fault) : sim (Abort f) (Abort f)
| sim_Log (e : E) (k k' : Co E O A) : sim k k' -> sim (Log e k) (Log e k')
| sim_Yld (o : O) (k k' : bool -> Co E O A) :
    (forall ok, sim (k ok) (k' ok)) -> sim (Yld o k) (Yld o k').

End Protocol.


(** The nested sequence of an item, when it has one, is obedient. *)
Definition item_obedient {T Other : Type} (item : any nat T Other) : Prop :=
  match item with
  | SeqItem v => obedient v
  | SeqPtrItem (Some v) => obedient v
  | _ => True
  end.

Section Serve.

Context {T C : Type} (consumer : T -> C -> bool * C).

(** What the consumer receives from a slice, up to and including the
    element on which it answers stop, and the state it ends in. *)
Fixpoint serve (ys : list T) (c : C) : list T * C :=
  match ys with
  | [] => ([], c)
  | y :: ys' =>
      let '(ok, c') := consumer y c in
      if ok then let '(d, c'') := serve ys' c' in (y :: d, c'')
      else ([y], c')
  end.

End Serve.

(** [Skip]'s loop entered with [count] already at some value. *)
Definition Skip_from {T : Type} (s : Seq nat T) (n count : Z) : Seq nat T :=
  for_range s (fun v count =>
    if (count >=? n)%Z then
      ok <- yield v ;;
      if negb ok then Ret (Return, count)
      else Ret (Next, GoInt.incr count)
    else Ret (Next, GoInt.incr count)) count ;;
  Ret tt.

(** Whether a fallible transform succeeds on an element, and its value. *)
Definition succeeds {T R error : Type} (transform : T -> R * option error)
    (v : T) : bool :=
  match snd (transform v) with
  | None => true
  | Some _ => false
  end.

Definition value_of {T R error : Type} (transform : T -> R * option error)
    (v : T) : R :=
  fst (transform v).

(** A keyed function or transform as a function on pairs. *)
Definition on_pair {K V X : Type} (f : K -> V -> X) (kv : K * V) : X :=
  f (fst kv) (snd kv).

Definition fallible_on_pair {K V K2 V2 error : Type}
    (transform : K -> V -> K2 * V2 * option error) (kv : K * V)
    : (K2 * V2) * option error :=
  let '(k2, v2, err) := transform (fst kv) (snd kv) in ((k2, v2), err).

End Reference.

Import Reference.

(** ** Facts about runs *)

Module RunFacts.

Lemma wrap_id (z : Z) : GoInt.in_range z -> GoInt.wrap z = z.
Proof.
  unfold GoInt.in_range, GoInt.wrap, GoInt.min_int, GoInt.max_int, GoInt.bits.
  intros H. rewrite Z.mod_small; lia.
Qed.

Lemma incr_below (count n : Z) :
  GoInt.in_range n -> (0 <= count < n)%Z -> GoInt.incr count = (count + 1)%Z.
Proof.
  intros Hn Hc. unfold GoInt.incr. apply wrap_id.
  unfold GoInt.in_range, GoInt.min_int, GoInt.max_int, GoInt.bits in *. lia.
Qed.

Section Silent.

Context {E : Type}.

Lemma silent_bind {O A B : Type} (m : Co E O A) (f : A -> Co E O B) :
  silent m -> (forall a, silent (f a)) -> silent (bind m f).
Proof.
  induction m as [a | r | e k IH | o k IH]; simpl; intros Hm Hf; auto.
  all: try contradiction.
Qed.

Lemma silent_exited {T O : Type} (s : Seq E T) : silent (exited (O:=O) s).
Proof. induction s; simpl; auto. Qed.

Lemma silent_stopped {T O : Type} (s : Seq E T) : silent (stopped (O:=O) s).
Proof. induction s as [a | r | e k IH | o k IH]; simpl; auto. Qed.

End Silent.

Section TopLevel.

Context {E A B : Type}.

Lemma trace_bind (m : Co E Empty_set A) (f : A -> Co E Empty_set B) :
  trace (bind m f)
    = trace m ++ match outcome m with
                 | Done a => trace (f a)
                 | Failed _ => []
                 end.
Proof.
  induction m as [a | r | e k IH | [] k IH]; simpl; auto. now rewrite IH.
Qed.

Lemma outcome_bind (m : Co E Empty_set A) (f : A -> Co E Empty_set B) :
  outcome (bind m f)
    = match outcome m with
      | Done a => outcome (f a)
      | Failed r => Failed r
      end.
Proof.
  induction m as [a | r | e k IH | [] k IH]; simpl; auto.
Qed.

End TopLevel.

Section Outputs.

Context {T : Type}.

Lemma outputs_app (tr1 tr2 : list (Event T)) :
  outputs (tr1 ++ tr2) = outputs tr1 ++ outputs tr2.
Proof.
  induction tr1 as [| [src | o] tr1 IH]; simpl; auto. now rewrite IH.
Qed.

Lemma visits_app (src : nat) (tr1 tr2 : list (Event T)) :
  visits src (tr1 ++ tr2) = (visits src tr1 + visits src tr2)%nat.
Proof.
  induction tr1 as [| [i | o] tr1 IH]; simpl; auto. rewrite IH. lia.
Qed.

(** A sequence that never yields hands nothing to the consumer. *)
Lemma drive_silent {C : Type} (s : Seq nat T)
    (consumer : T -> C -> bool * C) (c : C) :
  silent s -> outputs (trace (drive s consumer c)) = [].
Proof.
  unfold drive.
  induction s as [a | r | e k IH | o k IH]; simpl; intros Hs; auto.
  all: try contradiction.
Qed.

Lemma collect_elements (s : Seq nat T) : collect s = elements s.
Proof.
  unfold collect, drive.
  induction s as [a | r | e k IH | v k IH]; simpl; auto.
  f_equal. apply IH.
Qed.

Lemma elements_Values (l : list T) : elements (Values l) = l.
Proof. induction l as [| v l IH]; simpl; congruence. Qed.

Lemma elements_Recording (src : nat) (l : list T) :
  elements (Recording src l) = l.
Proof. induction l as [| v l IH]; simpl; congruence. Qed.

Lemma collect_Values (l : list T) : collect (Values l) = l.
Proof. rewrite collect_elements. apply elements_Values. Qed.

Lemma collect_Recording (src : nat) (l : list T) :
  collect (Recording src l) = l.
Proof. rewrite collect_elements. apply elements_Recording. Qed.

End Outputs.

Lemma collect_Log {X : Type} (src : nat) (k : Seq nat X) :
  collect (Log src k) = collect k.
Proof. reflexivity. Qed.

Lemma collect_Yld {X : Type} (x : X) (k : bool -> Seq nat X) :
  collect (Yld x k) = x :: collect (k true).
Proof. reflexivity. Qed.

(** An inner loop over a nested sequence, inside whatever follows it; the
    body passes every element on. *)
Lemma collect_inner_range_ext {T X : Type}
    (body : T -> unit -> Co nat T (Flow * unit))
    (K1 : Flow * unit -> Co nat T X) (K2 : X -> Seq nat T) (v : Seq nat T) :
  (forall y, body y tt = pass_on y tt) ->
  completes v ->
  collect (bind (bind (for_range v body tt) K1) K2)
    = collect v ++ collect (bind (K1 (Next, tt)) K2).
Proof.
  intros Hbody. unfold collect, drive.
  induction v as [u | r | e k IH | y k IH]; intros Hv.
  - reflexivity.
  - contradiction.
  - simpl. now apply IH.
  - cbn [for_range]. rewrite Hbody. simpl. f_equal. now apply (IH true).
Qed.

Lemma collect_inner_range {T X : Type} (K1 : Flow * unit -> Co nat T X)
    (K2 : X -> Seq nat T) (v : Seq nat T) :
  completes v ->
  collect (bind (bind (for_range v pass_on tt) K1) K2)
    = collect v ++ collect (bind (K1 (Next, tt)) K2).
Proof. apply collect_inner_range_ext. reflexivity. Qed.

(** An inner loop over a slice, inside whatever follows it. *)
Lemma collect_inner_slice {T X : Type} (K1 : Flow * unit -> Co nat T X)
    (K2 : X -> Seq nat T) (l : list T) :
  collect (bind (bind (for_slice l pass_on tt) K1) K2)
    = l ++ collect (bind (K1 (Next, tt)) K2).
Proof.
  unfold collect, drive.
  induction l as [| y l IH]; simpl.
  - reflexivity.
  - f_equal. apply IH.
Qed.

End RunFacts.

Import RunFacts.

(** ** Filter *)

Module FilterFacts.

Section Filter.

Context {T : Type}.

Lemma collect_Filter (s : Seq nat T) (pred : T -> bool) :
  collect (Filter s pred) = filter pred (collect s).
Proof.
  unfold collect, drive, Filter.
  induction s as [a | r | e k IH | v k IH]; simpl; auto.
  destruct (pred v); simpl.
  - f_equal. apply (IH true).
  - apply (IH true).
Qed.

Lemma filter_length_le (pred : T -> bool) (l : list T) :
  (length (filter pred l) <= length l)%nat.
Proof.
  induction l as [| v l IH]; simpl; auto.
  destruct (pred v); simpl; lia.
Qed.

(** C3.  Driving [Filter(s, pred)] to completion hands the consumer exactly
    the elements of [s] that satisfy [pred], in the order of [s], and so
    never more elements than [s] produces. *)
Theorem Filter_yields_subsequence (s : Seq nat T) (pred : T -> bool) :
  collect (Filter s pred) = filter pred (collect s) /\
  (length (collect (Filter s pred)) <= length (collect s))%nat.
Proof.
  rewrite collect_Filter. split; [reflexivity | apply filter_length_le].
Qed.

End Filter.

End FilterFacts.

(** ** Take *)

Module TakeFacts.

Section Take.

Context {T : Type}.

Lemma Take_from_0 (s : Seq nat T) (n : Z) : Take s n = Take_from s n 0.
Proof. reflexivity. Qed.

Lemma Take_after_exit (r : Seq nat T) (count : Z) :
  silent (bind (bind (exited (O:=T) r) (fun _ => Ret (Return, count)))
               (fun _ => Ret tt)).
Proof.
  apply silent_bind; [| intros; exact I].
  apply silent_bind; [apply silent_exited | intros; exact I].
Qed.

Lemma collect_Take_from (s : Seq nat T) (n : Z) (Hn : GoInt.in_range n) :
  forall count, (0 <= count)%Z ->
  collect (Take_from s n count) = firstn (Z.to_nat (n - count)) (collect s).
Proof.
  induction s as [a | r | e k IH | v k IH]; intros count Hc.
  - now rewrite firstn_nil.
  - now rewrite firstn_nil.
  - apply (IH count Hc).
  - unfold collect, Take_from. simpl for_range.
    destruct (Z.geb_spec count n) as [Hge | Hlt].
    + replace (Z.to_nat (n - count)) with O by lia.
      apply drive_silent, Take_after_exit.
    + replace (Z.to_nat (n - count))
        with (S (Z.to_nat (n - (count + 1)))) by lia.
      rewrite (incr_below count n) by (auto; lia).
      simpl. f_equal. apply (IH true (count + 1)%Z). lia.
Qed.

(** C2.  Driving [Take(s, n)] to completion hands the consumer the first
    [min(n, |s|)] elements of [s], in order: none when [n <= 0], and all of
    [s] when [n] exceeds the length of [s]. *)
Theorem Take_yields_prefix (s : Seq nat T) (n : Z) (Hn : GoInt.in_range n) :
  collect (Take s n) = firstn (Z.to_nat n) (collect s) /\
  length (collect (Take s n)) = Nat.min (Z.to_nat n) (length (collect s)) /\
  ((n <= 0)%Z -> collect (Take s n) = []) /\
  ((Z.of_nat (length (collect s)) < n)%Z -> collect (Take s n) = collect s).
Proof.
  assert (H : collect (Take s n) = firstn (Z.to_nat n) (collect s)).
  { rewrite Take_from_0, collect_Take_from by (auto; lia).
    now rewrite Z.sub_0_r. }
  rewrite H. repeat split.
  - apply length_firstn.
  - intros Hle. now replace (Z.to_nat n) with O by lia.
  - intros Hlt. apply firstn_all2. lia.
Qed.

(** How many elements the source produces under [Take]: one more than the
    limit allows whenever it has one more. *)
Lemma visits_Take_from (src : nat) (l : list T) (n : Z)
    (Hn : GoInt.in_range n) :
  forall count, (0 <= count)%Z ->
  visits src (trace (drive (Take_from (Recording src l) n count) always tt))
    = Nat.min (length l) (S (Z.to_nat (n - count))).
Proof.
  induction l as [| v l IH]; intros count Hc.
  - reflexivity.
  - unfold Take_from. simpl for_range.
    destruct (Z.geb_spec count n) as [Hge | Hlt].
    + replace (Z.to_nat (n - count)) with O by lia.
      simpl. rewrite Nat.eqb_refl. destruct l; reflexivity.
    + replace (Z.to_nat (n - count))
        with (S (Z.to_nat (n - (count + 1)))) by lia.
      rewrite (incr_below count n) by (auto; lia).
      simpl. rewrite Nat.eqb_refl. simpl.
      f_equal. apply (IH (count + 1)%Z). lia.
Qed.

(** C1 (as the code behaves).  Driven with the always-continue consumer,
    [Take(s, n)] makes a source that has more than [n] elements produce
    [n + 1] of them: the element after the limit is requested and dropped. *)
Theorem Take_requests_one_past_limit (src : nat) (l : list T) (n : Z)
    (Hn : GoInt.in_range n) (H0 : (0 <= n)%Z)
    (Hlen : (n < Z.of_nat (length l))%Z) :
  visits src (trace (drive (Take (Recording src l) n) always tt))
    = S (Z.to_nat n) /\
  collect (Take (Recording src l) n) = firstn (Z.to_nat n) l.
Proof.
  split.
  - rewrite Take_from_0, visits_Take_from by (auto; lia).
    rewrite Z.sub_0_r. lia.
  - rewrite Take_from_0, collect_Take_from by (auto; lia).
    now rewrite Z.sub_0_r, collect_Recording.
Qed.

End Take.

Lemma Take_yields_prefix_witness :
  GoInt.in_range 5 /\
  collect (Take (Values [1; 2; 3; 4; 5; 6; 7; 8; 9; 10]%Z) 5)
    = [1; 2; 3; 4; 5]%Z.
Proof.
  assert (Hn : GoInt.in_range 5) by (vm_compute; intuition discriminate).
  split; [exact Hn |].
  destruct (Take_yields_prefix
              (Values [1; 2; 3; 4; 5; 6; 7; 8; 9; 10]%Z) 5 Hn) as [H _].
  rewrite H. reflexivity.
Defined.

Lemma Take_requests_one_past_limit_witness :
  GoInt.in_range 2 /\ (0 <= 2)%Z /\
  (2 < Z.of_nat (length [1; 2; 3; 4; 5]%Z))%Z /\
  visits 0 (trace (drive (Take (Recording 0%nat [1; 2; 3; 4; 5]%Z) 2)
                         always tt)) = 3%nat.
Proof.
  assert (Hn : GoInt.in_range 2) by (vm_compute; intuition discriminate).
  assert (H0 : (0 <= 2)%Z) by lia.
  assert (Hlen : (2 < Z.of_nat (length [1; 2; 3; 4; 5]%Z))%Z)
    by (simpl; lia).
  split; [exact Hn |]. split; [exact H0 |]. split; [exact Hlen |].
  exact (proj1 (Take_requests_one_past_limit 0%nat [1; 2; 3; 4; 5]%Z 2
                  Hn H0 Hlen)).
Defined.

End TakeFacts.

(** ** Map and Reduce *)

Module ReduceFacts.

Section Reduce.

Context {E T R A : Type}.

(** [Reduce]'s loop entered with the accumulator at some value. *)
Lemma Reduce_Map_from (O : Type) (s : Seq E T) (f : T -> R)
    (g : A -> R -> A) :
  forall acc : A,
    Reduce (O:=O) (Map s f) acc g = Reduce s acc (fun a x => g a (f x)).
Proof.
  unfold Reduce, Map.
  induction s as [u | r | e k IH | v k IH]; intros acc; simpl.
  - reflexivity.
  - reflexivity.
  - f_equal. apply IH.
  - apply (IH true).
Qed.

(** [Reduce] over a slice is a left fold. *)
Lemma Reduce_Values (O : Type) (l : list T) (g : A -> T -> A) :
  forall acc : A,
    Reduce (E:=E) (O:=O) (Values l) acc g = Ret (fold_left g l acc).
Proof.
  unfold Reduce.
  induction l as [| v l IH]; intros acc; simpl.
  - reflexivity.
  - apply IH.
Qed.

(** C7.  Map/reduce fusion: reducing [Map(s, f)] with [g] is the same
    computation as reducing [s] with [fun a x => g a (f x)]: the same
    result, the same visits of the source, and over a slice the left fold
    both ways. *)
Theorem Reduce_Map_fusion (s : Seq E T) (f : T -> R) (g : A -> R -> A)
    (acc : A) :
  Reduce (O:=Empty_set) (Map s f) acc g
    = Reduce s acc (fun a x => g a (f x)) /\
  forall l : list T,
    outcome (Reduce (E:=E) (Map (Values l) f) acc g)
      = Done (fold_left (fun a x => g a (f x)) l acc).
Proof.
  split.
  - apply Reduce_Map_from.
  - intros l. rewrite Reduce_Map_from, Reduce_Values. reflexivity.
Qed.

End Reduce.

End ReduceFacts.

(** ** FilterMap *)

Module FilterMapFacts.

Section FilterMap.

Context {T R error : Type}.

Lemma collect_FilterMap (s : Seq nat T) (transform : T -> R * option error) :
  collect (FilterMap s transform) = flat_map (kept transform) (collect s).
Proof.
  unfold collect, drive, FilterMap.
  induction s as [u | r | e k IH | v k IH]; simpl; auto.
  unfold kept. destruct (transform v) as [result [err |]]; simpl.
  - apply (IH true).
  - f_equal. apply (IH true).
Qed.

(** The keyed variant is the same loop over pairs. *)
Lemma collect_FilterMap2 {K1 V1 K2 V2 : Type} (s : Seq2 nat K1 V1)
    (transform : K1 -> V1 -> K2 * V2 * option error) :
  collect (FilterMap2 s transform)
    = flat_map (fun kv => match transform (fst kv) (snd kv) with
                          | (k2, v2, None) => [(k2, v2)]
                          | (_, _, Some _) => []
                          end) (collect s).
Proof.
  unfold collect, drive, FilterMap2.
  induction s as [u | r | e k IH | [k1 v1] k IH]; simpl; auto.
  destruct (transform k1 v1) as [[k2 v2] [err |]]; simpl.
  - apply (IH true).
  - f_equal. apply (IH true).
Qed.

End FilterMap.

(** C8.  [FilterMap(s, transform)] hands the consumer, for each element of
    [s] in order, the transformed value when the transform returns no error
    and nothing at all when it returns one; over [1,2,3,4,5] with the
    transform failing on [3] the output is [1,4,16,25]. *)
Theorem FilterMap_keeps_successes :
  (forall (T R error : Type) (s : Seq nat T)
          (transform : T -> R * option error),
      collect (FilterMap s transform)
        = flat_map (kept transform) (collect s)) /\
  (forall (T R error : Type) (transform : T -> R * option error) (v : T),
      (snd (transform v) = None -> kept transform v = [fst (transform v)]) /\
      (snd (transform v) <> None -> kept transform v = [])) /\
  collect (FilterMap (Values [1; 2; 3; 4; 5]%Z) square_unless_3)
    = [1; 4; 16; 25]%Z.
Proof.
  split; [| split].
  - intros. apply collect_FilterMap.
  - intros T R error transform v. unfold kept.
    destruct (transform v) as [result [err |]]; simpl; split; intros H;
      congruence.
  - reflexivity.
Qed.

End FilterMapFacts.

(** ** Zip *)

Module ZipFacts.

Lemma outputs_mark {O : Type} (r : option nat) (tr : list (Event O)) :
  outputs (mark r ++ tr) = outputs tr.
Proof. destruct r; reflexivity. Qed.

Lemma visits_mark {O : Type} (src : nat) (r : option nat)
    (tr : list (Event O)) :
  visits src (mark r ++ tr)
    = ((if match r with Some i => Nat.eqb i src | None => false end
        then 1 else 0) + visits src tr)%nat.
Proof. destruct r; reflexivity. Qed.

Section Zip.

Context {T U : Type}.

Lemma Zip_from_Fresh (fuel : nat) (s1 : Seq nat T) (s2 : Seq nat U) :
  Zip fuel s1 s2 = Zip_from fuel (Fresh s1) (Fresh s2).
Proof. reflexivity. Qed.

Section Reference.

Context {C : Type} (consumer : T * U -> C -> bool * C).

Lemma drive_Zip_from (r1 r2 : option nat) (A : list T) :
  forall (B : list U) (fuel : nat) (h1 : Handle nat T) (h2 : Handle nat U)
         (c : C),
    before r1 A h1 -> before r2 B h2 ->
    (Nat.min (length A) (length B) < fuel)%nat ->
    trace (drive (Zip_from fuel h1 h2) consumer c)
      = fst (zip_run consumer r1 r2 A B c) /\
    outcome (drive (Zip_from fuel h1 h2) consumer c)
      = Done (snd (zip_run consumer r1 r2 A B c)).
Proof.
  induction A as [| a A IH]; intros B fuel h1 h2 c H1 H2 Hfuel.
  - destruct fuel as [| fuel]; [simpl in Hfuel; lia |].
    destruct r1, r2;
      destruct H1 as [-> | [-> | [_ ->]]];
      destruct H2 as [-> | [-> | [_ ->]]]; split; reflexivity.
  - destruct fuel as [| fuel]; [simpl in Hfuel; lia |].
    destruct B as [| b B].
    + destruct r1, r2;
        destruct H1 as [-> | [-> | [? _]]]; try discriminate;
        destruct H2 as [-> | [-> | [_ ->]]]; split; reflexivity.
    + assert (Hstep :
        trace (drive (Zip_from (S fuel) h1 h2) consumer c)
          = mark r1 ++ mark r2 ++ Out (a, b) ::
            (if fst (consumer (a, b) c)
             then trace (drive (Zip_from fuel (parked r1 A) (parked r2 B))
                               consumer (snd (consumer (a, b) c)))
             else []) /\
        outcome (drive (Zip_from (S fuel) h1 h2) consumer c)
          = (if fst (consumer (a, b) c)
             then outcome (drive (Zip_from fuel (parked r1 A) (parked r2 B))
                               consumer (snd (consumer (a, b) c)))
             else Done (snd (consumer (a, b) c)))).
      { destruct r1, r2;
          destruct H1 as [-> | [-> | [? _]]]; try discriminate;
          destruct H2 as [-> | [-> | [? _]]]; try discriminate;
          unfold drive; simpl;
          destruct (consumer (a, b) c) as [[|] c']; simpl;
          split; reflexivity. }
      destruct Hstep as [Htr Hout]. rewrite Htr, Hout. simpl zip_run.
      destruct (consumer (a, b) c) as [[|] c']; simpl fst; simpl snd.
      * destruct (IH B fuel (parked r1 A) (parked r2 B) c') as [IHtr IHout].
        { right; left; reflexivity. }
        { right; left; reflexivity. }
        { simpl in Hfuel. lia. }
        rewrite IHtr, IHout.
        destruct (zip_run consumer r1 r2 A B c') as [tr c''];
          split; reflexivity.
      * split; reflexivity.
Qed.

(** Driving [Zip] over two slices with enough fuel is the reference run. *)
Lemma drive_Zip (r1 r2 : option nat) (A : list T) (B : list U)
    (fuel : nat) (c : C) :
  (Nat.min (length A) (length B) < fuel)%nat ->
  trace (drive (Zip fuel (source r1 A) (source r2 B)) consumer c)
    = fst (zip_run consumer r1 r2 A B c) /\
  outcome (drive (Zip fuel (source r1 A) (source r2 B)) consumer c)
    = Done (snd (zip_run consumer r1 r2 A B c)).
Proof.
  intros Hfuel. rewrite Zip_from_Fresh.
  apply drive_Zip_from; auto; left; reflexivity.
Qed.

End Reference.

Section Always.

Context (r1 r2 : option nat).

Lemma zip_run_always_outputs (A : list T) :
  forall B : list U,
    outputs (fst (zip_run always r1 r2 A B tt)) = combine A B.
Proof.
  induction A as [| a A IH]; intros [| b B]; simpl; auto.
  - destruct r1; reflexivity.
  - specialize (IH B). destruct (zip_run always r1 r2 A B tt) as [tr c].
    simpl in *. rewrite !outputs_mark. simpl. now rewrite IH.
Qed.

Lemma zip_run_always_visits (src : nat) (A : list T) :
  forall B : list U,
    visits src (fst (zip_run always r1 r2 A B tt))
      = ((if match r1 with Some i => Nat.eqb i src | None => false end
          then Nat.min (length A) (S (length B)) else 0)
         + (if match r2 with Some i => Nat.eqb i src | None => false end
            then Nat.min (length A) (length B) else 0))%nat.
Proof.
  induction A as [| a A IH]; intros [| b B]; simpl.
  - destruct r1, r2; simpl; repeat destruct (Nat.eqb _ _); reflexivity.
  - destruct r1, r2; simpl; repeat destruct (Nat.eqb _ _); reflexivity.
  - destruct r1 as [i |], r2 as [j |]; simpl;
      repeat destruct (Nat.eqb _ _); simpl; rewrite ?Nat.min_0_r;
      reflexivity.
  - specialize (IH B). destruct (zip_run always r1 r2 A B tt) as [tr c].
    simpl in *. rewrite !visits_mark. simpl. rewrite IH.
    destruct r1 as [i |], r2 as [j |]; simpl;
      repeat destruct (Nat.eqb _ _); simpl; lia.
Qed.

End Always.

Section StopAt.

Context (r1 r2 : option nat) (k : nat).

Lemma zip_run_stop_at_cons (a : T) (A : list T) (b : U) (B : list U)
    (c : nat) :
  zip_run (stop_at k) r1 r2 (a :: A) (b :: B) c
    = if Nat.eqb (S c) k
      then (mark r1 ++ mark r2 ++ [Out (a, b)], S c)
      else let '(tr, c'') := zip_run (stop_at k) r1 r2 A B (S c) in
           (mark r1 ++ mark r2 ++ Out (a, b) :: tr, c'').
Proof.
  cbn [zip_run]. unfold stop_at at 1.
  destruct (Nat.eqb (S c) k); reflexivity.
Qed.

(** The consumer that stops at its [k]-th pair, having received [c]. *)
Lemma zip_run_stop_at (A : list T) :
  forall (B : list U) (c : nat),
    (c < k)%nat -> (k - c <= length A)%nat -> (k - c <= length B)%nat ->
    outputs (fst (zip_run (stop_at k) r1 r2 A B c))
      = firstn (k - c) (combine A B) /\
    snd (zip_run (stop_at k) r1 r2 A B c) = k /\
    forall src,
      visits src (fst (zip_run (stop_at k) r1 r2 A B c))
        = ((if match r1 with Some i => Nat.eqb i src | None => false end
            then k - c else 0)
           + (if match r2 with Some i => Nat.eqb i src | None => false end
              then k - c else 0))%nat.
Proof.
  induction A as [| a A IH]; intros [| b B] c Hc HA HB;
    try (simpl in HA, HB; lia).
  rewrite zip_run_stop_at_cons.
  destruct (Nat.eqb_spec (S c) k) as [Heq | Hne].
  - replace (k - c)%nat with 1%nat by lia. simpl fst; simpl snd.
    split; [| split].
    + rewrite !outputs_mark. reflexivity.
    + exact Heq.
    + intros src. rewrite !visits_mark. simpl.
      destruct r1, r2; simpl; repeat destruct (Nat.eqb _ _); reflexivity.
  - destruct (IH B (S c)) as (IHo & IHc & IHv);
      try (simpl in HA, HB; lia).
    destruct (zip_run (stop_at k) r1 r2 A B (S c)) as [tr c''].
    simpl fst in *; simpl snd in *.
    replace (k - c)%nat with (S (k - S c)) by lia.
    split; [| split].
    + rewrite !outputs_mark. simpl. now rewrite IHo.
    + exact IHc.
    + intros src. rewrite !visits_mark. simpl. rewrite IHv.
      destruct r1, r2; simpl; repeat destruct (Nat.eqb _ _); simpl; lia.
Qed.

End StopAt.

Section AnySources.

Lemma next_rest {X O : Type} (h : Handle nat X) :
  next (O:=O) h = advance (rest h).
Proof. destruct h; reflexivity. Qed.

Lemma collect_advance {X Y W : Type} (s : Seq nat X)
    (K1 : option X * Handle nat X -> Co nat Y W) (K2 : W -> Seq nat Y) :
  collect (bind (bind (advance s) K1) K2)
    = match peek s with
      | Some res => collect (bind (K1 res) K2)
      | None => []
      end.
Proof.
  unfold collect, drive.
  induction s as [u | r | e k IH | v k IH]; simpl; auto.
Qed.

Lemma elements_peek {X : Type} (s : Seq nat X) :
  elements s = match peek s with
               | Some (Some v, h) => v :: elements (rest h)
               | _ => []
               end.
Proof. induction s as [u | r | e k IH | v k IH]; simpl; auto. Qed.

Lemma silent_stop {X O : Type} (h : Handle nat X) : silent (stop (O:=O) h).
Proof. destruct h; simpl; auto. apply silent_stopped. Qed.

Lemma collect_stops (h1 : Handle nat T) (h2 : Handle nat U) :
  collect (bind (stop (O:=T * U) h2) (fun _ => stop h1)) = [].
Proof.
  apply drive_silent, silent_bind; [apply silent_stop |].
  intros _. apply silent_stop.
Qed.

(** Whatever the two coroutines are, the pairs handed over are those of
    what is left of them. *)
Lemma collect_Zip_from (fuel : nat) :
  forall (h1 : Handle nat T) (h2 : Handle nat U),
    (Nat.min (length (elements (rest h1))) (length (elements (rest h2)))
       < fuel)%nat ->
    collect (Zip_from fuel h1 h2)
      = combine (elements (rest h1)) (elements (rest h2)).
Proof.
  induction fuel as [| fuel IH]; intros h1 h2 Hfuel; [lia |].
  unfold Zip_from. simpl Zip_loop.
  rewrite next_rest, collect_advance, (elements_peek (rest h1)).
  rewrite (elements_peek (rest h1)) in Hfuel.
  destruct (peek (rest h1)) as [[[v1 |] h1'] |];
    [| apply collect_stops | reflexivity].
  rewrite next_rest, collect_advance, (elements_peek (rest h2)).
  rewrite (elements_peek (rest h2)) in Hfuel.
  destruct (peek (rest h2)) as [[[v2 |] h2'] |];
    [| apply collect_stops | reflexivity].
  simpl combine. simpl in Hfuel.
  assert (Hlt : (Nat.min (length (elements (rest h1')))
                         (length (elements (rest h2'))) < fuel)%nat) by lia.
  exact (f_equal (cons (v1, v2)) (IH h1' h2' Hlt)).
Qed.

Lemma collect_source {X : Type} (r : option nat) (l : list X) :
  collect (source r l) = l.
Proof. destruct r; [apply collect_Recording | apply collect_Values]. Qed.

End AnySources.

(** C4.  Driving [Zip(A, B)] to completion hands the consumer the pairs
    [(a_i, b_i)] of the elements of the two sequences, in order,
    [min(|A|, |B|)] of them and nothing more; over slices the drive
    returns. *)
Theorem Zip_yields_pairs (s1 : Seq nat T) (s2 : Seq nat U) (fuel : nat)
    (Hfuel : (Nat.min (length (collect s1)) (length (collect s2))
                < fuel)%nat) :
  collect (Zip fuel s1 s2) = combine (collect s1) (collect s2) /\
  length (collect (Zip fuel s1 s2))
    = Nat.min (length (collect s1)) (length (collect s2)) /\
  (forall (r1 r2 : option nat) (A : list T) (B : list U),
      s1 = source r1 A -> s2 = source r2 B ->
      outcome (drive (Zip fuel s1 s2) always tt) = Done tt).
Proof.
  assert (H : collect (Zip fuel s1 s2) = combine (collect s1) (collect s2)).
  { rewrite !collect_elements in *. rewrite <- collect_elements.
    rewrite Zip_from_Fresh. now apply collect_Zip_from. }
  rewrite H. repeat split.
  - apply length_combine.
  - intros r1 r2 A B -> ->. rewrite !collect_source in Hfuel.
    destruct (drive_Zip always r1 r2 A B fuel tt Hfuel) as [_ Hout].
    rewrite Hout. now destruct (snd (zip_run always r1 r2 A B tt)).
Qed.

(** C5.  When the consumer of [Zip(A, B)] answers stop on its [k]-th pair,
    each source has produced exactly [k] elements when the drive returns. *)
Theorem Zip_stop_advances_no_further (i j : nat) (A : list T) (B : list U)
    (k fuel : nat) (Hij : i <> j) (Hk : (1 <= k)%nat)
    (HA : (k <= length A)%nat) (HB : (k <= length B)%nat)
    (Hfuel : (Nat.min (length A) (length B) < fuel)%nat) :
  let run := drive (Zip fuel (Recording i A) (Recording j B)) (stop_at k) O in
  visits i (trace run) = k /\
  visits j (trace run) = k /\
  outputs (trace run) = firstn k (combine A B) /\
  outcome run = Done k.
Proof.
  destruct (drive_Zip (stop_at k) (Some i) (Some j) A B fuel O Hfuel)
    as [Htr Hout].
  simpl source in Htr, Hout. cbv zeta. rewrite Htr, Hout.
  destruct (zip_run_stop_at (Some i) (Some j) k A B O) as (Ho & Hc & Hv);
    try lia.
  rewrite Nat.sub_0_r in *. rewrite Ho, Hc, !Hv.
  rewrite !Nat.eqb_refl.
  destruct (Nat.eqb_spec j i) as [-> | _]; [contradiction |].
  destruct (Nat.eqb_spec i j) as [-> | _]; [contradiction |].
  repeat split; lia.
Qed.

(** C10.  Driven to its natural end, [Zip] pulls the first source first:
    when [A] runs out first both sources produced [|A|] elements, and when
    [B] runs out first [A] produced [|B| + 1], one more than was paired. *)
Theorem Zip_exhaustion_asymmetric (i j : nat) (A : list T) (B : list U)
    (fuel : nat) (Hij : i <> j)
    (Hfuel : (Nat.min (length A) (length B) < fuel)%nat) :
  let tr := trace (drive (Zip fuel (Recording i A) (Recording j B))
                         always tt) in
  ((length A <= length B)%nat ->
     visits i tr = length A /\ visits j tr = length A) /\
  ((length B < length A)%nat ->
     visits i tr = S (length B) /\ visits j tr = length B).
Proof.
  destruct (drive_Zip always (Some i) (Some j) A B fuel tt Hfuel)
    as [Htr _].
  simpl source in Htr. cbv zeta. rewrite Htr.
  rewrite !zip_run_always_visits. rewrite !Nat.eqb_refl.
  destruct (Nat.eqb_spec j i) as [-> | _]; [contradiction |].
  destruct (Nat.eqb_spec i j) as [-> | _]; [contradiction |].
  split; intros H; split; lia.
Qed.

End Zip.

Lemma Zip_yields_pairs_witness :
  (Nat.min (length (collect (Values [1; 2; 3; 4; 5]%Z)))
           (length (collect (Values ["a"; "b"; "c"]%string))) < 6)%nat /\
  collect (Zip 6 (Values [1; 2; 3; 4; 5]%Z) (Values ["a"; "b"; "c"]%string))
    = [(1%Z, "a"%string); (2%Z, "b"%string); (3%Z, "c"%string)].
Proof.
  assert (Hfuel :
    (Nat.min (length (collect (Values [1; 2; 3; 4; 5]%Z)))
             (length (collect (Values ["a"; "b"; "c"]%string))) < 6)%nat)
    by (vm_compute; lia).
  split; [exact Hfuel |].
  exact (proj1 (Zip_yields_pairs (Values [1; 2; 3; 4; 5]%Z)
                  (Values ["a"; "b"; "c"]%string) 6 Hfuel)).
Defined.

Lemma Zip_stop_advances_no_further_witness :
  1%nat <> 2%nat /\ (1 <= 2)%nat /\
  (2 <= length [1; 2; 3; 4; 5]%Z)%nat /\
  (2 <= length ["a"; "b"; "c"]%string)%nat /\
  (Nat.min (length [1; 2; 3; 4; 5]%Z)
           (length ["a"; "b"; "c"]%string) < 6)%nat /\
  visits 1 (trace (drive (Zip 6 (Recording 1%nat [1; 2; 3; 4; 5]%Z)
                               (Recording 2%nat ["a"; "b"; "c"]%string))
                         (stop_at 2) O)) = 2%nat /\
  visits 2 (trace (drive (Zip 6 (Recording 1%nat [1; 2; 3; 4; 5]%Z)
                               (Recording 2%nat ["a"; "b"; "c"]%string))
                         (stop_at 2) O)) = 2%nat.
Proof.
  assert (Hij : 1%nat <> 2%nat) by lia.
  assert (Hk : (1 <= 2)%nat) by lia.
  assert (HA : (2 <= length [1; 2; 3; 4; 5]%Z)%nat) by (simpl; lia).
  assert (HB : (2 <= length ["a"; "b"; "c"]%string)%nat) by (simpl; lia).
  assert (Hfuel : (Nat.min (length [1; 2; 3; 4; 5]%Z)
                           (length ["a"; "b"; "c"]%string) < 6)%nat)
    by (simpl; lia).
  split; [exact Hij |]. split; [exact Hk |]. split; [exact HA |].
  split; [exact HB |]. split; [exact Hfuel |].
  destruct (Zip_stop_advances_no_further 1 2 [1; 2; 3; 4; 5]%Z
              ["a"; "b"; "c"]%string 2 6 Hij Hk HA HB Hfuel)
    as (H1 & H2 & _).
  split; [exact H1 | exact H2].
Defined.

Lemma Zip_exhaustion_asymmetric_witness :
  1%nat <> 2%nat /\
  (Nat.min (length [1; 2; 3; 4; 5]%Z)
           (length ["a"; "b"; "c"]%string) < 6)%nat /\
  visits 1 (trace (drive (Zip 6 (Recording 1%nat [1; 2; 3; 4; 5]%Z)
                               (Recording 2%nat ["a"; "b"; "c"]%string))
                         always tt)) = 4%nat /\
  visits 2 (trace (drive (Zip 6 (Recording 1%nat [1; 2; 3; 4; 5]%Z)
                               (Recording 2%nat ["a"; "b"; "c"]%string))
                         always tt)) = 3%nat.
Proof.
  assert (Hij : 1%nat <> 2%nat) by lia.
  assert (Hfuel : (Nat.min (length [1; 2; 3; 4; 5]%Z)
                           (length ["a"; "b"; "c"]%string) < 6)%nat)
    by (simpl; lia).
  split; [exact Hij |]. split; [exact Hfuel |].
  destruct (Zip_exhaustion_asymmetric 1 2 [1; 2; 3; 4; 5]%Z
              ["a"; "b"; "c"]%string 6 Hij Hfuel) as [_ Hlong].
  apply Hlong. simpl. lia.
Defined.

End ZipFacts.

(** ** FlatMap *)

Module FlatMapFacts.

Import ZipFacts.

Section FlatMap.

Context {T R C : Type} (consumer : R -> C -> bool * C).

(** The inner loop over a slice, inside whatever follows it. *)
Lemma drive_inner_loop {X : Type} (K1 : Flow * unit -> Co nat R X)
    (K2 : X -> Seq nat R) (ys : list R) :
  forall c : C,
    let m := bind (bind (for_range (Values ys) pass_on tt) K1) K2 in
    let '(tr, go, c') := feed consumer ys c in
    trace (drive m consumer c)
      = tr ++ (if go then trace (drive (bind (K1 (Next, tt)) K2) consumer c')
               else trace (wind_down (bind (K1 (Return, tt)) K2))) /\
    outcome (drive m consumer c)
      = (if go then outcome (drive (bind (K1 (Next, tt)) K2) consumer c')
         else match outcome (wind_down (bind (K1 (Return, tt)) K2)) with
              | Done _ => Done c'
              | Failed f => Failed f
              end).
Proof.
  induction ys as [| y ys IH]; intros c; cbv zeta.
  - simpl. split; reflexivity.
  - simpl feed. specialize (IH (snd (consumer y c))).
    unfold drive in *. simpl.
    destruct (consumer y c) as [[|] c']; simpl in *.
    + destruct (feed consumer ys c') as [[tr go] c'']. destruct IH as [IHt IHo].
      rewrite IHt, IHo. split; reflexivity.
    + unfold wind_down. rewrite !trace_bind, !outcome_bind.
      destruct (outcome (exited (observed (bind (K1 (Return, tt)) K2))));
        simpl; rewrite ?app_nil_r; split; reflexivity.
Qed.

Lemma FlatMap_cons (r : option nat) (t : T -> list R) (x : T) (l : list T)
    (c : C) :
  trace (drive (FlatMap (source r (x :: l)) (fun x => Values (t x)))
               consumer c)
    = mark r ++
      trace (drive (bind (bind (for_range (Values (t x)) pass_on tt)
                               (FlatMap_step r t l))
                         (fun _ => Ret tt)) consumer c) /\
  outcome (drive (FlatMap (source r (x :: l)) (fun x => Values (t x)))
                 consumer c)
    = outcome (drive (bind (bind (for_range (Values (t x)) pass_on tt)
                                 (FlatMap_step r t l))
                           (fun _ => Ret tt)) consumer c).
Proof. destruct r; split; reflexivity. Qed.

Lemma FlatMap_next (r : option nat) (t : T -> list R) (l : list T) (c : C) :
  drive (bind (FlatMap_step r t l (Next, tt)) (fun _ => Ret tt)) consumer c
    = drive (FlatMap (source r l) (fun x => Values (t x))) consumer c.
Proof. reflexivity. Qed.

Lemma drive_FlatMap (r : option nat) (t : T -> list R) (l : list T) :
  forall c : C,
    trace (drive (FlatMap (source r l) (fun x => Values (t x))) consumer c)
      = fst (flatmap_run consumer r t l c) /\
    outcome (drive (FlatMap (source r l) (fun x => Values (t x))) consumer c)
      = Done (snd (flatmap_run consumer r t l c)).
Proof.
  induction l as [| x l IH]; intros c.
  - destruct r; split; reflexivity.
  - destruct (FlatMap_cons r t x l c) as [Ht Ho]. rewrite Ht, Ho.
    clear Ht Ho. simpl flatmap_run.
    pose proof (drive_inner_loop (FlatMap_step r t l) (fun _ => Ret tt)
                  (t x) c) as Hin.
    cbv zeta in Hin.
    destruct (feed consumer (t x) c) as [[tr go] c']. destruct Hin as [Ht Ho].
    rewrite Ht, Ho. clear Ht Ho.
    destruct go.
    + rewrite FlatMap_next. destruct (IH c') as [IHt IHo].
      rewrite IHt, IHo.
      destruct (flatmap_run consumer r t l c') as [tr' c'']. split; reflexivity.
    + simpl. rewrite app_nil_r. split; reflexivity.
Qed.

Lemma drive_Values (ys : list R) :
  forall c : C,
    trace (drive (Values ys) consumer c) = fst (fst (feed consumer ys c)) /\
    outcome (drive (Values ys) consumer c) = Done (snd (feed consumer ys c)).
Proof.
  induction ys as [| y ys IH]; intros c.
  - split; reflexivity.
  - specialize (IH (snd (consumer y c))). unfold drive in *. simpl.
    destruct (consumer y c) as [[|] c']; simpl in *.
    + destruct (feed consumer ys c') as [[tr go] c'']. destruct IH as [IHt IHo].
      simpl in *. rewrite IHt, IHo. split; reflexivity.
    + split; reflexivity.
Qed.

Lemma feed_app (ys zs : list R) :
  forall c : C,
    feed consumer (ys ++ zs) c
      = let '(tr, go, c') := feed consumer ys c in
        if go then
          let '(tr', go', c'') := feed consumer zs c' in (tr ++ tr', go', c'')
        else (tr, false, c').
Proof.
  induction ys as [| y ys IH]; intros c; simpl.
  - destruct (feed consumer zs c) as [[tr' go'] c'']. reflexivity.
  - destruct (consumer y c) as [[|] c']; [| reflexivity].
    rewrite IH.
    destruct (feed consumer ys c') as [[tr [|]] c'']; [| reflexivity].
    destruct (feed consumer zs c'') as [[tr' go'] c3]. reflexivity.
Qed.

Lemma visits_feed (src : nat) (ys : list R) :
  forall c : C, visits src (fst (fst (feed consumer ys c))) = O.
Proof.
  induction ys as [| y ys IH]; intros c; simpl; auto.
  destruct (consumer y c) as [[|] c']; [| reflexivity].
  specialize (IH c'). destruct (feed consumer ys c') as [[tr go] c'']. exact IH.
Qed.

(** The consumer is dealt with exactly as by the concatenation of the inner
    slices. *)
Lemma flatmap_run_concat (r : option nat) (t : T -> list R) (l : list T) :
  forall c : C,
    outputs (fst (flatmap_run consumer r t l c))
      = outputs (fst (fst (feed consumer (flat_map t l) c))) /\
    snd (flatmap_run consumer r t l c) = snd (feed consumer (flat_map t l) c).
Proof.
  induction l as [| x l IH]; intros c; simpl.
  - split; reflexivity.
  - rewrite feed_app. destruct (feed consumer (t x) c) as [[tr [|]] c'].
    + specialize (IH c').
      destruct (flatmap_run consumer r t l c') as [tr' c''].
      destruct (feed consumer (flat_map t l) c') as [[tr2 go2] c2].
      simpl in *. destruct IH as [IHo IHc].
      rewrite outputs_mark, !outputs_app, IHo, IHc. split; reflexivity.
    + simpl. rewrite outputs_mark. split; reflexivity.
Qed.

(** A stop inside the inner sequence of an outer element: no outer element
    after it is visited. *)
Lemma flatmap_run_stop (src : nat) (t : T -> list R) (x : T)
    (l2 : list T) (l1 : list T) :
  forall c : C,
    snd (fst (feed consumer (flat_map t l1) c)) = true ->
    snd (fst (feed consumer (t x)
                (snd (feed consumer (flat_map t l1) c)))) = false ->
    visits src (fst (flatmap_run consumer (Some src) t (l1 ++ x :: l2) c))
      = S (length l1).
Proof.
  induction l1 as [| x1 l1 IH]; intros c Hgo Hstop; simpl in *.
  - pose proof (visits_feed src (t x) c) as Hv.
    destruct (feed consumer (t x) c) as [[tr go] c']. simpl in *. subst go.
    simpl. now rewrite Nat.eqb_refl, Hv.
  - rewrite feed_app in Hgo, Hstop.
    pose proof (visits_feed src (t x1) c) as Hv.
    destruct (feed consumer (t x1) c) as [[tr [|]] c']; simpl in *;
      [| discriminate].
    specialize (IH c').
    destruct (feed consumer (flat_map t l1) c') as [[tr2 go2] c2]. simpl in *.
    specialize (IH Hgo Hstop).
    destruct (flatmap_run consumer (Some src) t (l1 ++ x :: l2) c')
      as [tr' c''].
    simpl in *. rewrite Nat.eqb_refl, visits_app, Hv, IH. reflexivity.
Qed.

(** C6.  Driving [FlatMap(s, transform)] with any consumer is the
    depth-first run: each outer element is visited, then all of its inner
    sequence is handed over before the next outer element is visited; the
    consumer is dealt with exactly as by the concatenation of the inner
    sequences (an empty one contributing nothing); and after a stop inside
    an inner sequence no further outer element is visited. *)
Theorem FlatMap_depth_first (r : option nat) (t : T -> list R) (l : list T)
    (c : C) :
  let run := drive (FlatMap (source r l) (fun x => Values (t x)))
                   consumer c in
  let flat := drive (Values (flat_map t l)) consumer c in
  (trace run = fst (flatmap_run consumer r t l c) /\
   outcome run = Done (snd (flatmap_run consumer r t l c))) /\
  (outputs (trace run) = outputs (trace flat) /\
   outcome run = outcome flat) /\
  (forall (src : nat) (l1 l2 : list T) (x : T),
      r = Some src -> l = l1 ++ x :: l2 ->
      snd (fst (feed consumer (flat_map t l1) c)) = true ->
      snd (fst (feed consumer (t x)
                (snd (feed consumer (flat_map t l1) c)))) = false ->
      visits src (trace run) = S (length l1)).
Proof.
  cbv zeta.
  destruct (drive_FlatMap r t l c) as [Ht Ho].
  destruct (drive_Values (flat_map t l) c) as [Ft Fo].
  destruct (flatmap_run_concat r t l c) as [Co Cc].
  rewrite Ht, Ho, Ft, Fo. repeat split; auto.
  - now rewrite Cc.
  - intros src l1 l2 x -> -> Hgo Hstop.
    now apply flatmap_run_stop.
Qed.

End FlatMap.

Section AnySources.

Context {T R : Type}.

(** Over any outer sequence and any inner sequences that do not panic, the
    output is the concatenation of the inner outputs. *)
Lemma collect_FlatMap (t : T -> Seq nat R) (s : Seq nat T) :
  Forall (fun x => completes (t x)) (collect s) ->
  collect (FlatMap s t) = flat_map (fun x => collect (t x)) (collect s).
Proof.
  unfold FlatMap.
  induction s as [u | r | e k IH | x k IH]; intros Hs.
  - reflexivity.
  - reflexivity.
  - apply IH. exact Hs.
  - rewrite collect_Yld in Hs. rewrite collect_Yld.
    inversion Hs as [| ? ? Hx Hrest]; subst.
    cbn [for_range]. cbv zeta.
    rewrite collect_inner_range_ext;
      [| intros y; reflexivity | assumption].
    simpl flat_map. f_equal. apply (IH true Hrest).
Qed.

End AnySources.

Section Keyed.

Context {K1 V1 K2 V2 : Type}.

(** The keyed variant is the same pair of loops over pairs. *)
Lemma collect_FlatMap2 (t : K1 -> V1 -> Seq2 nat K2 V2)
    (s : Seq2 nat K1 V1) :
  Forall (fun kv => completes (t (fst kv) (snd kv))) (collect s) ->
  collect (FlatMap2 s t)
    = flat_map (fun kv => collect (t (fst kv) (snd kv))) (collect s).
Proof.
  unfold FlatMap2.
  induction s as [u | r | e k IH | [k1 v1] k IH]; intros Hs.
  - reflexivity.
  - reflexivity.
  - apply IH. exact Hs.
  - rewrite collect_Yld in Hs. rewrite collect_Yld.
    inversion Hs as [| ? ? Hx Hrest]; subst.
    cbn [for_range]. cbv zeta.
    rewrite collect_inner_range_ext;
      [| intros [k2 v2]; reflexivity | assumption].
    simpl flat_map. f_equal. apply (IH true Hrest).
Qed.

End Keyed.

Lemma FlatMap_depth_first_witness :
  visits 0 (trace (drive
      (FlatMap (Recording 0%nat [[1; 2]; []; [3; 4]; [5; 6]]%Z)
               (fun x => Values x))
      (stop_at 3) O)) = 3%nat /\
  outputs (trace (drive
      (FlatMap (Recording 0%nat [[1; 2]; []; [3; 4]; [5; 6]]%Z)
               (fun x => Values x))
      (stop_at 3) O)) = [1; 2; 3]%Z.
Proof.
  destruct (FlatMap_depth_first (stop_at 3) (Some 0%nat) (fun x => x)
              [[1; 2]; []; [3; 4]; [5; 6]]%Z O) as (_ & [Hout _] & Hstop).
  split.
  - apply (Hstop 0%nat [[1; 2]; []]%Z [[5; 6]]%Z [3; 4]%Z);
      reflexivity.
  - etransitivity; [exact Hout | reflexivity].
Defined.

(** The example of the documentation, and an empty inner sequence. *)
Example FlatMap_example :
  collect (FlatMap (Values [[1; 2]; [3; 4]; [5; 6]]%Z) (fun x => Values x))
    = [1; 2; 3; 4; 5; 6]%Z /\
  collect (FlatMap (Values [[1; 2]; []; [5; 6]]%Z) (fun x => Values x))
    = [1; 2; 5; 6]%Z.
Proof. split; reflexivity. Qed.

End FlatMapFacts.

(** ** Flatten *)

Module FlattenFacts.

Section Flatten.

Context {T Other : Type}.

Lemma completes_Values (l : list T) : completes (Values l).
Proof. induction l; simpl; auto. Qed.

Lemma Flatten_Yld (item : any nat T Other)
    (k : bool -> Seq nat (any nat T Other)) :
  item_completes item ->
  collect (Flatten (Yld item k))
    = item_elements item ++ collect (Flatten (k true)).
Proof.
  intros Hitem.
  change (collect (Flatten (k true)))
    with (collect (bind (Flatten_step k (Next, tt)) (fun _ => Ret tt))).
  destruct item as [v | [v |] | l | [l |] | v | o].
  - apply (collect_inner_range (Flatten_step k) (fun _ => Ret tt) v Hitem).
  - apply (collect_inner_range (Flatten_step k) (fun _ => Ret tt) v Hitem).
  - reflexivity.
  - apply (collect_inner_slice (Flatten_step k) (fun _ => Ret tt) l).
  - apply (collect_inner_slice (Flatten_step k) (fun _ => Ret tt) l).
  - reflexivity.
  - reflexivity.
  - reflexivity.
Qed.

(** C9.  [Flatten] puts every item in one of the five shapes of its type
    switch (nested sequence, optional nested sequence, list, optional list,
    scalar) or in none, and hands the consumer the elements of each
    recognized item in place and in order, an absent optional or an item
    of another shape contributing nothing while the rest goes on. *)
Theorem Flatten_unrolls_in_place (s : Seq nat (any nat T Other))
    (Hs : Forall item_completes (collect s)) :
  collect (Flatten s) = flat_map item_elements (collect s).
Proof.
  induction s as [u | r | e k IH | item k IH].
  - reflexivity.
  - reflexivity.
  - rewrite collect_Log in Hs. rewrite collect_Log.
    change (collect (Flatten (Log e k))) with (collect (Flatten k)).
    now apply IH.
  - rewrite collect_Yld in Hs. rewrite collect_Yld.
    inversion Hs as [| ? ? Hitem Hrest]; subst.
    rewrite Flatten_Yld by assumption.
    simpl flat_map. f_equal. now apply (IH true).
Qed.

End Flatten.

Lemma Flatten_unrolls_in_place_witness :
  Forall item_completes (collect (Values mixed)) /\
  collect (Flatten (Values mixed)) = [1; 2; 3; 4; 5; 6; 7; 8; 9; 10]%Z.
Proof.
  assert (Hs : Forall item_completes (collect (Values mixed)))
    by (simpl; repeat constructor).
  split; [exact Hs |].
  rewrite (Flatten_unrolls_in_place (Values mixed) Hs). reflexivity.
Defined.

End FlattenFacts.

(** ** The protocol between a sequence and its consumer *)

Module ProtocolFacts.

Section Generic.

Context {E : Type}.


Lemma halts_exited {T O : Type} (s : Seq E T) :
  halts s -> halts (exited (O:=O) s).
Proof. induction s as [a | r | e k IH | o k IH]; simpl; auto. Qed.



Lemma quits_bind {O L L' : Type} (m : Co E O (Flow * L))
    (K : Flow * L -> Co E O (Flow * L')) :
  quits m -> (forall l, quits (K (Return, l))) -> quits (bind m K).
Proof.
  induction m as [[fl l] | r | e k IH | o k IH]; simpl; intros Hm HK; auto.
  now subst fl.
Qed.

Lemma quits_polite {O L : Type} (m : Co E O (Flow * L)) :
  quits m -> polite m.
Proof.
  induction m as [[fl l] | r | e k IH | o k IH]; simpl; intros H; auto.
  contradiction.
Qed.

Lemma quits_exit {T O L : Type} (s : Seq E T) (l : L) :
  halts s -> quits (bind (exited (O:=O) s) (fun _ => Ret (Return, l))).
Proof. induction s as [a | r | e k IH | o k IH]; simpl; auto. Qed.

Lemma quits_halts {O L : Type} (m : Co E O (Flow * L)) :
  quits m -> halts (bind m (fun _ => Ret tt)).
Proof. induction m as [[fl l] | r | e k IH | o k IH]; simpl; auto. Qed.

Lemma polite_bind {O L L' : Type} (m : Co E O (Flow * L))
    (K : Flow * L -> Co E O (Flow * L')) :
  polite m -> (forall r, polite (K r)) ->
  (forall l, quits (K (Return, l))) -> polite (bind m K).
Proof.
  induction m as [[fl l] | r | e k IH | o k IH]; simpl;
    intros Hm HK HQ; auto.
  destruct Hm as [Ht Hf]. split; [now apply IH | now apply quits_bind].
Qed.

(** A loop over an obedient sequence with a polite body is polite. *)
Lemma polite_for_range {T O L : Type} (s : Seq E T)
    (body : T -> L -> Co E O (Flow * L)) :
  obedient s -> (forall v l, polite (body v l)) ->
  forall l, polite (for_range s body l).
Proof.
  intros Hs Hbody.
  induction s as [a | r | e k IH | v k IH]; intros l; simpl in *; auto.
  destruct Hs as [Ht Hf].
  apply polite_bind; auto.
  - intros [[|] l']; [now apply IH |].
    apply quits_polite. now apply quits_exit.
  - intros l'. now apply quits_exit.
Qed.

Lemma polite_for_slice {T O L : Type} (s : list T)
    (body : T -> L -> Co E O (Flow * L)) :
  (forall v l, polite (body v l)) ->
  forall l, polite (for_slice s body l).
Proof.
  intros Hbody.
  induction s as [| v s IH]; intros l; simpl; auto.
  apply polite_bind; auto.
  - intros [[|] l']; simpl; auto.
  - intros l'. reflexivity.
Qed.

(** A function that is one polite loop is an obedient sequence. *)
Lemma obedient_loop {O L : Type} (m : Co E O (Flow * L)) :
  polite m -> obedient (bind m (fun _ => Ret tt)).
Proof.
  induction m as [[fl l] | r | e k IH | o k IH]; simpl; auto.
  intros [Ht Hf]. split; [now apply IH | now apply quits_halts].
Qed.

(** [if !yield(v) { return }] is polite. *)
Lemma polite_pass {O L : Type} (v : O) (l l' : L) :
  polite (E:=E) (bind (yield v)
    (fun ok => if negb ok then Ret (Return, l) else Ret (Next, l'))).
Proof. simpl. auto. Qed.

Lemma obedient_Values {T : Type} (l : list T) : obedient (E:=E) (Values l).
Proof. induction l; simpl; auto. Qed.

Lemma obedient_Recording {T : Type} (e : E) (l : list T) :
  obedient (Recording e l).
Proof. induction l; simpl; auto. Qed.

End Generic.

Lemma obedient_completes {T : Type} (s : Seq nat T) :
  obedient s -> completes s.
Proof.
  induction s as [a | r | e k IH | v k IH]; simpl; auto.
  intros [Ht _]. now apply IH.
Qed.

(** As [polite_for_range], the body being polite on the elements the
    sequence has. *)
Lemma polite_for_range_on {T O L : Type} (s : Seq nat T)
    (body : T -> L -> Co nat O (Flow * L)) :
  obedient s ->
  (forall v, In v (elements s) -> forall l, polite (body v l)) ->
  forall l, polite (for_range s body l).
Proof.
  induction s as [a | r | e k IH | v k IH]; intros Hs Hbody l;
    simpl in *; auto.
  destruct Hs as [Ht Hf].
  apply polite_bind; auto.
  - intros [[|] l']; [apply IH; auto |].
    apply quits_polite. now apply quits_exit.
  - intros l'. now apply quits_exit.
Qed.

Section Driven.

Context {T C : Type} (consumer : T -> C -> bool * C).

Lemma halts_wind_down (s : Seq nat T) :
  halts s ->
  outputs (trace (wind_down s)) = [] /\ outcome (wind_down s) = Done tt.
Proof.
  unfold wind_down.
  induction s as [[] | r | e k IH | o k IH]; simpl; intros H; auto;
    contradiction.
Qed.

(** Driving an obedient sequence with any consumer serves the consumer the
    elements of the sequence and returns. *)
Lemma drive_obedient (s : Seq nat T) :
  obedient s ->
  forall c : C,
    outputs (trace (drive s consumer c))
      = fst (serve consumer (elements s) c) /\
    outcome (drive s consumer c)
      = Done (snd (serve consumer (elements s) c)).
Proof.
  unfold drive.
  induction s as [[] | r | e k IH | v k IH]; simpl; intros Hs c.
  - split; reflexivity.
  - contradiction.
  - now apply IH.
  - destruct Hs as [Ht Hf].
    destruct (consumer v c) as [[|] c']; simpl.
    + destruct (IH true Ht c') as [IHo IHc].
      destruct (serve consumer (elements (k true)) c') as [d c''].
      simpl in *. rewrite IHo, IHc. split; reflexivity.
    + destruct (halts_wind_down (k false) Hf) as [Ho Hc].
      unfold wind_down in *.
      rewrite !trace_bind, !outcome_bind, Hc. simpl.
      rewrite !outputs_app, Ho. split; reflexivity.
Qed.

Lemma obedient_served (s : Seq nat T) (l : list T) (c : C) :
  obedient s -> collect s = l ->
  outputs (trace (drive s consumer c)) = fst (serve consumer l c) /\
  outcome (drive s consumer c) = Done (snd (serve consumer l c)).
Proof.
  intros Hs <-. rewrite collect_elements. now apply drive_obedient.
Qed.

End Driven.

End ProtocolFacts.

Import ProtocolFacts.

(** ** Computations that agree *)

Module SimFacts.

Section Generic.

Context {E : Type}.

Lemma sim_refl {O A : Type} (m : Co E O A) : sim m m.
Proof. induction m; constructor; auto. Qed.

Lemma sim_bind {O A B : Type} (m m' : Co E O A) (f f' : A -> Co E O B) :
  sim m m' -> (forall a, sim (f a) (f' a)) -> sim (bind m f) (bind m' f').
Proof.
  intros Hm Hf. induction Hm; simpl; auto; constructor; auto.
Qed.

Lemma sim_exited {T O : Type} (s s' : Seq E T) :
  sim s s' -> sim (exited (O:=O) s) (exited s').
Proof. intros H. induction H; simpl; constructor; auto. Qed.

(** Loops over the same sequence with bodies that agree agree. *)
Lemma sim_for_range {T O L : Type} (s : Seq E T)
    (body body' : T -> L -> Co E O (Flow * L)) :
  (forall v l, sim (body v l) (body' v l)) ->
  forall l, sim (for_range s body l) (for_range s body' l).
Proof.
  intros Hbody.
  induction s as [a | r | e k IH | v k IH]; intros l; simpl.
  - apply sim_refl.
  - apply sim_refl.
  - constructor. apply IH.
  - apply sim_bind; auto.
    intros [[|] l']; [apply IH | apply sim_refl].
Qed.

(** The same loop over sequences that agree. *)
Lemma sim_for_range_source {T O L : Type} (s s' : Seq E T)
    (body : T -> L -> Co E O (Flow * L)) :
  sim s s' -> forall l, sim (for_range s body l) (for_range s' body l).
Proof.
  intros Hs. induction Hs as [a | f | e k k' Hk IH | o k k' Hk IH];
    intros l; simpl.
  - apply sim_refl.
  - apply sim_refl.
  - constructor. apply IH.
  - apply sim_bind; [apply sim_refl |].
    intros [[|] l']; [apply IH |].
    apply sim_bind; [apply sim_exited, Hk | intros; apply sim_refl].
Qed.

Lemma sim_observe {A : Type} (m m' : Co E Empty_set A) :
  sim m m' -> trace m = trace m' /\ outcome m = outcome m'.
Proof.
  intros H. induction H as [a | f | e k k' Hk IH | [] k k' Hk IH]; simpl;
    auto.
  destruct IH as [IHt IHo]. split; congruence.
Qed.

End Generic.

Section Driven.

Context {T C : Type}.

Lemma sim_observed {A : Type} (m m' : Co nat T A) :
  sim m m' -> sim (observed m) (observed m').
Proof. intros H. induction H; simpl; constructor; auto. Qed.

(** Sequences that agree are driven alike by every consumer. *)
Lemma drive_sim (s s' : Seq nat T) (consumer : T -> C -> bool * C) (c : C) :
  sim s s' ->
  trace (drive s consumer c) = trace (drive s' consumer c) /\
  outcome (drive s consumer c) = outcome (drive s' consumer c).
Proof.
  intros H. apply sim_observe. unfold drive.
  apply sim_bind; [| intros; apply sim_refl].
  apply sim_for_range_source, sim_observed, H.
Qed.

End Driven.

Lemma collect_sim {T : Type} (s s' : Seq nat T) :
  sim s s' -> collect s = collect s'.
Proof.
  intros H. unfold collect.
  destruct (drive_sim s s' always tt H) as [Ht _]. now rewrite Ht.
Qed.

Section Keyed.

Context {E K V : Type}.

Lemma sim_Filter2 (s : Seq2 E K V) (pred : K -> V -> bool) :
  sim (Filter2 s pred) (Filter s (on_pair pred)).
Proof.
  unfold Filter2, Filter.
  apply sim_bind; [| intros; apply sim_refl].
  apply sim_for_range. intros [k v] []. apply sim_refl.
Qed.

Lemma sim_Take2 (s : Seq2 E K V) (n : Z) : sim (Take2 s n) (Take s n).
Proof.
  unfold Take2, Take.
  apply sim_bind; [| intros; apply sim_refl].
  apply sim_for_range. intros [k v] count. apply sim_refl.
Qed.

Lemma sim_Skip2 (s : Seq2 E K V) (n : Z) : sim (Skip2 s n) (Skip s n).
Proof.
  unfold Skip2, Skip.
  apply sim_bind; [| intros; apply sim_refl].
  apply sim_for_range. intros [k v] count. apply sim_refl.
Qed.

Lemma sim_Map2 {K2 V2 : Type} (s : Seq2 E K V)
    (transform : K -> V -> K2 * V2) :
  sim (Map2 s transform) (Map s (on_pair transform)).
Proof.
  unfold Map2, Map.
  apply sim_bind; [| intros; apply sim_refl].
  apply sim_for_range. intros [k v] []. unfold on_pair. simpl.
  destruct (transform k v) as [k2 v2]. apply sim_refl.
Qed.

Lemma sim_FilterMap2 {K2 V2 error : Type} (s : Seq2 E K V)
    (transform : K -> V -> K2 * V2 * option error) :
  sim (FilterMap2 s transform) (FilterMap s (fallible_on_pair transform)).
Proof.
  unfold FilterMap2, FilterMap.
  apply sim_bind; [| intros; apply sim_refl].
  apply sim_for_range. intros [k v] []. unfold fallible_on_pair. simpl.
  destruct (transform k v) as [[k2 v2] err]. apply sim_refl.
Qed.

Lemma sim_FlatMap2 {K2 V2 : Type} (s : Seq2 E K V)
    (transform : K -> V -> Seq2 E K2 V2) :
  sim (FlatMap2 s transform) (FlatMap s (on_pair transform)).
Proof.
  unfold FlatMap2, FlatMap.
  apply sim_bind; [| intros; apply sim_refl].
  apply sim_for_range. intros [k v] []. cbv zeta. unfold on_pair. simpl.
  apply sim_for_range. intros [k2 v2] []. apply sim_refl.
Qed.

End Keyed.

End SimFacts.

Import SimFacts.

(** ** Skip, and Skip with Take *)

Module SkipFacts.

Section Skip.

Context {T : Type}.

#[local] Arguments Nat.eqb : simpl never.

Lemma incr_small (count : Z) :
  (0 <= count < GoInt.max_int)%Z -> GoInt.incr count = (count + 1)%Z.
Proof.
  intros H. unfold GoInt.incr. apply wrap_id.
  unfold GoInt.in_range, GoInt.min_int, GoInt.max_int, GoInt.bits in *. lia.
Qed.

Lemma Skip_from_0 (s : Seq nat T) (n : Z) : Skip s n = Skip_from s n 0.
Proof. reflexivity. Qed.

Lemma collect_Skip_from (n : Z) (s : Seq nat T) :
  forall count,
    (0 <= count)%Z ->
    (count + Z.of_nat (length (collect s)) <= GoInt.max_int)%Z ->
    collect (Skip_from s n count) = skipn (Z.to_nat (n - count)) (collect s).
Proof.
  induction s as [a | r | e k IH | v k IH]; intros count Hc Hlen.
  - now rewrite skipn_nil.
  - now rewrite skipn_nil.
  - apply (IH count Hc Hlen).
  - rewrite collect_Yld in *. simpl length in Hlen.
    unfold collect, Skip_from. simpl for_range.
    rewrite (incr_small count) by lia.
    destruct (Z.geb_spec count n) as [Hge | Hlt].
    + replace (Z.to_nat (n - count)) with O by lia.
      simpl. f_equal.
      transitivity (skipn (Z.to_nat (n - (count + 1))) (collect (k true))).
      * apply (IH true (count + 1)%Z); lia.
      * now replace (Z.to_nat (n - (count + 1))) with O by lia.
    + replace (Z.to_nat (n - count))
        with (S (Z.to_nat (n - (count + 1)))) by lia.
      simpl. apply (IH true (count + 1)%Z); lia.
Qed.

Lemma collect_Skip (s : Seq nat T) (n : Z) :
  (Z.of_nat (length (collect s)) <= GoInt.max_int)%Z ->
  collect (Skip s n) = skipn (Z.to_nat n) (collect s).
Proof.
  intros Hlen. rewrite Skip_from_0, collect_Skip_from by lia.
  now rewrite Z.sub_0_r.
Qed.

Lemma collect_Take (s : Seq nat T) (n : Z) :
  GoInt.in_range n -> collect (Take s n) = firstn (Z.to_nat n) (collect s).
Proof.
  intros Hn. rewrite TakeFacts.Take_from_0.
  rewrite TakeFacts.collect_Take_from by (auto; lia).
  now rewrite Z.sub_0_r.
Qed.

(** Driving [Skip(s, n)] to completion hands the consumer the elements of
    [s] after the first [n]: all of them when [n <= 0], none when [s] has
    no more than [n].  The counter is incremented once per element of [s],
    so [s] must not have more elements than an [int] can count. *)
Theorem Skip_yields_suffix (s : Seq nat T) (n : Z)
    (Hlen : (Z.of_nat (length (collect s)) <= GoInt.max_int)%Z) :
  collect (Skip s n) = skipn (Z.to_nat n) (collect s) /\
  ((n <= 0)%Z -> collect (Skip s n) = collect s) /\
  ((Z.of_nat (length (collect s)) <= n)%Z -> collect (Skip s n) = []).
Proof.
  rewrite collect_Skip by assumption. repeat split.
  - intros Hle. now replace (Z.to_nat n) with O by lia.
  - intros Hge. apply skipn_all2. lia.
Qed.

(** What [Take(s, n)] hands over followed by what [Skip(s, n)] hands over
    is what [s] produces. *)
Theorem Take_Skip_concat (s : Seq nat T) (n : Z) (Hn : GoInt.in_range n)
    (Hlen : (Z.of_nat (length (collect s)) <= GoInt.max_int)%Z) :
  collect (Take s n) ++ collect (Skip s n) = collect s.
Proof.
  rewrite collect_Take, collect_Skip by assumption. apply firstn_skipn.
Qed.

(** [Take(Skip(s, n), m)] is the page of [s] at offset [n] of length up to
    [m]. *)
Theorem Skip_Take_page (s : Seq nat T) (n m : Z) (Hm : GoInt.in_range m)
    (Hlen : (Z.of_nat (length (collect s)) <= GoInt.max_int)%Z) :
  collect (Take (Skip s n) m)
    = firstn (Z.to_nat m) (skipn (Z.to_nat n) (collect s)).
Proof.
  rewrite collect_Take, collect_Skip by assumption. reflexivity.
Qed.

Lemma visits_Skip_stop (src : nat) (n : Z) (k : nat) (l : list T) :
  forall count received,
    (0 <= count)%Z ->
    (count + Z.of_nat (length l) <= GoInt.max_int)%Z ->
    (received < k)%nat ->
    (Z.to_nat (n - count) + (k - received) <= length l)%nat ->
    visits src (trace (drive (Skip_from (Recording src l) n count)
                             (stop_at k) received))
      = (Z.to_nat (n - count) + (k - received))%nat.
Proof.
  induction l as [| v l IH]; intros count received Hc Hlen Hr Hl;
    simpl in Hl; [lia |].
  simpl length in Hlen.
  pose proof (IH (count + 1)%Z (S received)) as IHs.
  specialize (IH (count + 1)%Z received).
  unfold Skip_from in *. simpl for_range.
  rewrite (incr_small count) by lia.
  destruct (Z.geb_spec count n) as [Hge | Hlt].
  - unfold drive, stop_at in *. simpl. rewrite Nat.eqb_refl.
    destruct (Nat.eqb_spec (S received) k) as [Heq | Hne]; simpl.
    + lia.
    + replace (Z.to_nat (n - count) + (k - received))%nat
        with (S (Z.to_nat (n - (count + 1)) + (k - S received))) by lia.
      f_equal. apply IHs; lia.
  - unfold drive in *. simpl. rewrite Nat.eqb_refl. simpl.
    replace (Z.to_nat (n - count) + (k - received))%nat
      with (S (Z.to_nat (n - (count + 1)) + (k - received))) by lia.
    f_equal. apply IH; lia.
Qed.

(** The skipped elements are still requested from the source: when the
    consumer of [Skip(s, n)] answers stop on its [k]-th element, the source
    has produced [n + k] elements, and no more. *)
Theorem Skip_stop_visits (src : nat) (l : list T) (n : Z) (k : nat)
    (Hk : (1 <= k)%nat) (Hl : (Z.to_nat n + k <= length l)%nat)
    (Hlen : (Z.of_nat (length l) <= GoInt.max_int)%Z) :
  visits src (trace (drive (Skip (Recording src l) n) (stop_at k) O))
    = (Z.to_nat n + k)%nat.
Proof.
  rewrite Skip_from_0, visits_Skip_stop; rewrite ?Z.sub_0_r; lia.
Qed.

Lemma obedient_Skip {E : Type} (s : Seq E T) (n : Z) :
  obedient s -> obedient (Skip s n).
Proof.
  intros Hs. apply obedient_loop, polite_for_range; auto.
  intros v count. destruct (count >=? n)%Z; [apply polite_pass | exact I].
Qed.

(** [Skip] keeps the protocol: over an obedient source it is obedient, and
    any consumer is served the suffix up to the element on which it answers
    stop, after which the drive returns. *)
Theorem Skip_keeps_protocol {C : Type} (s : Seq nat T) (n : Z)
    (consumer : T -> C -> bool * C) (c : C) (Hs : obedient s)
    (Hlen : (Z.of_nat (length (collect s)) <= GoInt.max_int)%Z) :
  obedient (Skip s n) /\
  outputs (trace (drive (Skip s n) consumer c))
    = fst (serve consumer (skipn (Z.to_nat n) (collect s)) c) /\
  outcome (drive (Skip s n) consumer c)
    = Done (snd (serve consumer (skipn (Z.to_nat n) (collect s)) c)).
Proof.
  split; [now apply obedient_Skip |].
  apply obedient_served; [now apply obedient_Skip | now apply collect_Skip].
Qed.

End Skip.

Lemma Skip_yields_suffix_witness :
  (Z.of_nat (length (collect (Values [1; 2; 3; 4; 5; 6; 7; 8; 9; 10]%Z)))
     <= GoInt.max_int)%Z /\
  collect (Skip (Values [1; 2; 3; 4; 5; 6; 7; 8; 9; 10]%Z) 5)
    = [6; 7; 8; 9; 10]%Z.
Proof.
  assert (Hlen :
    (Z.of_nat (length (collect (Values [1; 2; 3; 4; 5; 6; 7; 8; 9; 10]%Z)))
       <= GoInt.max_int)%Z) by (vm_compute; discriminate).
  split; [exact Hlen |].
  exact (proj1 (Skip_yields_suffix
                  (Values [1; 2; 3; 4; 5; 6; 7; 8; 9; 10]%Z) 5 Hlen)).
Defined.

Lemma Take_Skip_concat_witness :
  GoInt.in_range 2 /\
  (Z.of_nat (length (collect (Values [1; 2; 3; 4; 5]%Z)))
     <= GoInt.max_int)%Z /\
  collect (Take (Values [1; 2; 3; 4; 5]%Z) 2)
    ++ collect (Skip (Values [1; 2; 3; 4; 5]%Z) 2)
    = collect (Values [1; 2; 3; 4; 5]%Z).
Proof.
  assert (Hn : GoInt.in_range 2) by (vm_compute; intuition discriminate).
  assert (Hlen :
    (Z.of_nat (length (collect (Values [1; 2; 3; 4; 5]%Z)))
       <= GoInt.max_int)%Z) by (vm_compute; discriminate).
  split; [exact Hn |]. split; [exact Hlen |].
  exact (Take_Skip_concat (Values [1; 2; 3; 4; 5]%Z) 2 Hn Hlen).
Defined.

Lemma Skip_Take_page_witness :
  GoInt.in_range 3 /\
  (Z.of_nat (length (collect (Values [1; 2; 3; 4; 5; 6; 7; 8; 9; 10]%Z)))
     <= GoInt.max_int)%Z /\
  collect (Take (Skip (Values [1; 2; 3; 4; 5; 6; 7; 8; 9; 10]%Z) 4) 3)
    = [5; 6; 7]%Z.
Proof.
  assert (Hm : GoInt.in_range 3) by (vm_compute; intuition discriminate).
  assert (Hlen :
    (Z.of_nat (length (collect (Values [1; 2; 3; 4; 5; 6; 7; 8; 9; 10]%Z)))
       <= GoInt.max_int)%Z) by (vm_compute; discriminate).
  split; [exact Hm |]. split; [exact Hlen |].
  exact (Skip_Take_page (Values [1; 2; 3; 4; 5; 6; 7; 8; 9; 10]%Z) 4 3
           Hm Hlen).
Defined.

Lemma Skip_stop_visits_witness :
  (1 <= 2)%nat /\
  (Z.to_nat 3 + 2 <= length [1; 2; 3; 4; 5; 6; 7; 8]%Z)%nat /\
  (Z.of_nat (length [1; 2; 3; 4; 5; 6; 7; 8]%Z) <= GoInt.max_int)%Z /\
  visits 0 (trace (drive (Skip (Recording 0%nat
                                  [1; 2; 3; 4; 5; 6; 7; 8]%Z) 3)
                         (stop_at 2) O)) = 5%nat.
Proof.
  assert (Hk : (1 <= 2)%nat) by lia.
  assert (Hl : (Z.to_nat 3 + 2 <= length [1; 2; 3; 4; 5; 6; 7; 8]%Z)%nat)
    by (simpl; lia).
  assert (Hlen : (Z.of_nat (length [1; 2; 3; 4; 5; 6; 7; 8]%Z)
                    <= GoInt.max_int)%Z) by (vm_compute; discriminate).
  split; [exact Hk |]. split; [exact Hl |]. split; [exact Hlen |].
  exact (Skip_stop_visits 0%nat [1; 2; 3; 4; 5; 6; 7; 8]%Z 3 2 Hk Hl Hlen).
Defined.

Lemma Skip_keeps_protocol_witness :
  obedient (Values (E:=nat) [1; 2; 3; 4; 5; 6]%Z) /\
  (Z.of_nat (length (collect (Values [1; 2; 3; 4; 5; 6]%Z)))
     <= GoInt.max_int)%Z /\
  outputs (trace (drive (Skip (Values [1; 2; 3; 4; 5; 6]%Z) 2)
                        (stop_at 3) O)) = [3; 4; 5]%Z.
Proof.
  assert (Hs : obedient (Values (E:=nat) [1; 2; 3; 4; 5; 6]%Z))
    by (simpl; tauto).
  assert (Hlen :
    (Z.of_nat (length (collect (Values [1; 2; 3; 4; 5; 6]%Z)))
       <= GoInt.max_int)%Z) by (vm_compute; discriminate).
  split; [exact Hs |]. split; [exact Hlen |].
  exact (proj1 (proj2 (Skip_keeps_protocol
                         (Values [1; 2; 3; 4; 5; 6]%Z) 2 (stop_at 3) O
                         Hs Hlen))).
Defined.

End SkipFacts.

(** ** Map, Take and Filter under any consumer *)

Module LoopFacts.

Section Loops.

Context {T : Type}.

#[local] Arguments Nat.eqb : simpl never.

Lemma collect_Map {R : Type} (s : Seq nat T) (f : T -> R) :
  collect (Map s f) = map f (collect s).
Proof.
  unfold collect, drive, Map.
  induction s as [a | r | e k IH | v k IH]; simpl; auto.
  f_equal. apply (IH true).
Qed.

(** Driving [Map(s, transform)] to completion hands the consumer the image
    of every element of [s], in order: as many elements as [s] produces. *)
Theorem Map_yields_images {R : Type} (s : Seq nat T) (transform : T -> R) :
  collect (Map s transform) = map transform (collect s) /\
  length (collect (Map s transform)) = length (collect s).
Proof.
  rewrite collect_Map. split; [reflexivity | apply length_map].
Qed.

Lemma visits_Map_stop {R : Type} (src : nat) (f : T -> R) (k : nat)
    (l : list T) :
  forall received,
    (received < k)%nat -> (k - received <= length l)%nat ->
    visits src (trace (drive (Map (Recording src l) f) (stop_at k) received))
      = (k - received)%nat.
Proof.
  induction l as [| v l IH]; intros received Hr Hl; simpl in Hl; [lia |].
  specialize (IH (S received)).
  unfold drive, Map, stop_at in *. simpl. rewrite Nat.eqb_refl.
  destruct (Nat.eqb_spec (S received) k) as [Heq | Hne]; simpl.
  - lia.
  - replace (k - received)%nat with (S (k - S received)) by lia.
    f_equal. apply IH; lia.
Qed.

(** [Map] is lazy: when the consumer answers stop on its [k]-th element,
    the source has produced exactly [k] elements. *)
Theorem Map_stop_visits {R : Type} (src : nat) (l : list T)
    (transform : T -> R) (k : nat)
    (Hk : (1 <= k)%nat) (Hl : (k <= length l)%nat) :
  visits src (trace (drive (Map (Recording src l) transform) (stop_at k) O))
    = k.
Proof. rewrite visits_Map_stop; lia. Qed.

Lemma visits_Take_stop (src : nat) (n : Z) (Hn : GoInt.in_range n)
    (k : nat) (l : list T) :
  forall count received,
    (0 <= count)%Z -> (received < k)%nat ->
    (k - received <= length l)%nat ->
    (count + Z.of_nat (k - received) <= n)%Z ->
    visits src (trace (drive (Take_from (Recording src l) n count)
                             (stop_at k) received))
      = (k - received)%nat.
Proof.
  induction l as [| v l IH]; intros count received Hc Hr Hl Hcn;
    simpl in Hl; [lia |].
  specialize (IH (count + 1)%Z (S received)).
  unfold Take_from in *. simpl for_range.
  destruct (Z.geb_spec count n) as [Hge | Hlt]; [lia |].
  rewrite (incr_below count n) by (auto; lia).
  unfold drive, stop_at in *. simpl. rewrite Nat.eqb_refl.
  destruct (Nat.eqb_spec (S received) k) as [Heq | Hne]; simpl.
  - lia.
  - replace (k - received)%nat with (S (k - S received)) by lia.
    f_equal. apply IH; lia.
Qed.

(** When it is the consumer that stops [Take(s, n)], on its [k]-th element
    with [k <= n], the source has produced exactly [k] elements: the
    element after the limit is requested only when the limit itself ends
    the drive. *)
Theorem Take_stop_visits (src : nat) (l : list T) (n : Z) (k : nat)
    (Hn : GoInt.in_range n) (Hk : (1 <= k)%nat) (Hl : (k <= length l)%nat)
    (Hkn : (Z.of_nat k <= n)%Z) :
  visits src (trace (drive (Take (Recording src l) n) (stop_at k) O)) = k.
Proof.
  rewrite TakeFacts.Take_from_0, visits_Take_stop; auto; lia.
Qed.

(** How many elements [Take(s, n)] requests from a source of [|s|]
    elements when the consumer always continues: [min(|s|, max(n, 0) + 1)].
    In particular a non-empty source is asked for one element even when
    [n <= 0] and nothing is handed over. *)
Theorem Take_source_visits (src : nat) (l : list T) (n : Z)
    (Hn : GoInt.in_range n) :
  visits src (trace (drive (Take (Recording src l) n) always tt))
    = Nat.min (length l) (S (Z.to_nat n)) /\
  ((n <= 0)%Z -> l <> [] ->
     visits src (trace (drive (Take (Recording src l) n) always tt)) = 1%nat
     /\ collect (Take (Recording src l) n) = []).
Proof.
  assert (H : visits src (trace (drive (Take (Recording src l) n)
                                       always tt))
              = Nat.min (length l) (S (Z.to_nat n))).
  { rewrite TakeFacts.Take_from_0.
    rewrite TakeFacts.visits_Take_from by (auto; lia).
    now rewrite Z.sub_0_r. }
  split; [exact H |].
  intros Hle Hne. rewrite H. split.
  - replace (Z.to_nat n) with O by lia. destruct l; [contradiction |].
    simpl. destruct l; reflexivity.
  - rewrite SkipFacts.collect_Take by assumption.
    now replace (Z.to_nat n) with O by lia.
Qed.

Lemma obedient_Filter {E : Type} (s : Seq E T) (pred : T -> bool) :
  obedient s -> obedient (Filter s pred).
Proof.
  intros Hs. apply obedient_loop, polite_for_range; auto.
  intros v []. destruct (pred v); [apply polite_pass | exact I].
Qed.

Lemma obedient_Map {E R : Type} (s : Seq E T) (f : T -> R) :
  obedient s -> obedient (Map s f).
Proof.
  intros Hs. apply obedient_loop, polite_for_range; auto.
  intros v []. apply polite_pass.
Qed.

Lemma obedient_Take {E : Type} (s : Seq E T) (n : Z) :
  obedient s -> obedient (Take s n).
Proof.
  intros Hs. apply obedient_loop, polite_for_range; auto.
  intros v count. destruct (count >=? n)%Z; [exact I | apply polite_pass].
Qed.

Lemma obedient_FilterMap {E R error : Type} (s : Seq E T)
    (transform : T -> R * option error) :
  obedient s -> obedient (FilterMap s transform).
Proof.
  intros Hs. apply obedient_loop, polite_for_range; auto.
  intros v []. destruct (transform v) as [result [err |]];
    [exact I | apply polite_pass].
Qed.

(** [Filter] keeps the protocol: over an obedient source it is obedient,
    and any consumer is served the elements that satisfy the predicate up
    to the one on which it answers stop, after which the drive returns. *)
Theorem Filter_keeps_protocol {C : Type} (s : Seq nat T) (pred : T -> bool)
    (consumer : T -> C -> bool * C) (c : C) (Hs : obedient s) :
  obedient (Filter s pred) /\
  outputs (trace (drive (Filter s pred) consumer c))
    = fst (serve consumer (filter pred (collect s)) c) /\
  outcome (drive (Filter s pred) consumer c)
    = Done (snd (serve consumer (filter pred (collect s)) c)).
Proof.
  split; [now apply obedient_Filter |].
  apply obedient_served; [now apply obedient_Filter |].
  apply FilterFacts.collect_Filter.
Qed.

(** [Map] keeps the protocol: over an obedient source it is obedient, and
    any consumer is served the images up to the one on which it answers
    stop, after which the drive returns. *)
Theorem Map_keeps_protocol {R C : Type} (s : Seq nat T) (transform : T -> R)
    (consumer : R -> C -> bool * C) (c : C) (Hs : obedient s) :
  obedient (Map s transform) /\
  outputs (trace (drive (Map s transform) consumer c))
    = fst (serve consumer (map transform (collect s)) c) /\
  outcome (drive (Map s transform) consumer c)
    = Done (snd (serve consumer (map transform (collect s)) c)).
Proof.
  split; [now apply obedient_Map |].
  apply obedient_served; [now apply obedient_Map | apply collect_Map].
Qed.

(** [Take] keeps the protocol: over an obedient source it is obedient, and
    any consumer is served the first [n] elements up to the one on which
    it answers stop, after which the drive returns. *)
Theorem Take_keeps_protocol {C : Type} (s : Seq nat T) (n : Z)
    (consumer : T -> C -> bool * C) (c : C) (Hs : obedient s)
    (Hn : GoInt.in_range n) :
  obedient (Take s n) /\
  outputs (trace (drive (Take s n) consumer c))
    = fst (serve consumer (firstn (Z.to_nat n) (collect s)) c) /\
  outcome (drive (Take s n) consumer c)
    = Done (snd (serve consumer (firstn (Z.to_nat n) (collect s)) c)).
Proof.
  split; [now apply obedient_Take |].
  apply obedient_served; [now apply obedient_Take |].
  now apply SkipFacts.collect_Take.
Qed.

(** [FilterMap] keeps the protocol: over an obedient source it is obedient,
    and any consumer is served the successful results up to the one on
    which it answers stop, after which the drive returns. *)
Theorem FilterMap_keeps_protocol {R error C : Type} (s : Seq nat T)
    (transform : T -> R * option error)
    (consumer : R -> C -> bool * C) (c : C) (Hs : obedient s) :
  obedient (FilterMap s transform) /\
  outputs (trace (drive (FilterMap s transform) consumer c))
    = fst (serve consumer (flat_map (kept transform) (collect s)) c) /\
  outcome (drive (FilterMap s transform) consumer c)
    = Done (snd (serve consumer (flat_map (kept transform) (collect s)) c)).
Proof.
  split; [now apply obedient_FilterMap |].
  apply obedient_served; [now apply obedient_FilterMap |].
  apply FilterMapFacts.collect_FilterMap.
Qed.

Lemma kept_filter_map {R error : Type} (transform : T -> R * option error)
    (l : list T) :
  flat_map (kept transform) l
    = map (value_of transform) (filter (succeeds transform) l).
Proof.
  induction l as [| v l IH]; simpl; auto.
  assert (Hv : kept transform v
               = if succeeds transform v then [value_of transform v]
                 else []).
  { unfold kept, succeeds, value_of.
    destruct (transform v) as [result [err |]]; reflexivity. }
  rewrite Hv, IH. destruct (succeeds transform v); reflexivity.
Qed.

(** [FilterMap] hands over what [Map] over [Filter] would, the predicate
    being whether the transform succeeds and the function its value. *)
Theorem FilterMap_as_Filter_Map {R error : Type} (s : Seq nat T)
    (transform : T -> R * option error) :
  collect (FilterMap s transform)
    = collect (Map (Filter s (succeeds transform)) (value_of transform)).
Proof.
  rewrite FilterMapFacts.collect_FilterMap, collect_Map.
  rewrite FilterFacts.collect_Filter. apply kept_filter_map.
Qed.

(** [Reduce] folds the elements of any sequence that runs to its end from
    the left, starting from [initial] (which it returns for an empty
    sequence), and requests every element of the source. *)
Theorem Reduce_is_left_fold {A : Type} (s : Seq nat T) (initial : A)
    (reducer : A -> T -> A) (Hs : completes s) :
  outcome (Reduce s initial reducer)
    = Done (fold_left reducer (collect s) initial) /\
  (collect s = [] -> outcome (Reduce s initial reducer) = Done initial) /\
  (forall (src : nat) (l : list T),
      trace (Reduce (O:=Empty_set) (Recording src l) initial reducer)
        = repeat src (length l)).
Proof.
  assert (H : forall acc,
    outcome (Reduce s acc reducer)
      = Done (fold_left reducer (collect s) acc)).
  { rewrite collect_elements. unfold Reduce. revert Hs.
    induction s as [a | r | e k IH | v k IH]; simpl; intros Hs acc; auto.
    contradiction. }
  split; [apply H |]. split.
  - intros Hnil. rewrite H, Hnil. reflexivity.
  - intros src l. unfold Reduce. revert initial.
    induction l as [| v l IH]; simpl; intros acc; auto.
    f_equal. apply IH.
Qed.

End Loops.

Lemma Map_stop_visits_witness :
  (1 <= 2)%nat /\ (2 <= length [1; 2; 3; 4; 5]%Z)%nat /\
  visits 0 (trace (drive (Map (Recording 0%nat [1; 2; 3; 4; 5]%Z)
                              (fun n => n * n)%Z)
                         (stop_at 2) O)) = 2%nat.
Proof.
  assert (Hk : (1 <= 2)%nat) by lia.
  assert (Hl : (2 <= length [1; 2; 3; 4; 5]%Z)%nat) by (simpl; lia).
  split; [exact Hk |]. split; [exact Hl |].
  exact (Map_stop_visits 0%nat [1; 2; 3; 4; 5]%Z (fun n => n * n)%Z 2
           Hk Hl).
Defined.

Lemma Take_stop_visits_witness :
  GoInt.in_range 2 /\ (1 <= 2)%nat /\
  (2 <= length [1; 2; 3; 4; 5]%Z)%nat /\ (Z.of_nat 2 <= 2)%Z /\
  visits 0 (trace (drive (Take (Recording 0%nat [1; 2; 3; 4; 5]%Z) 2)
                         (stop_at 2) O)) = 2%nat.
Proof.
  assert (Hn : GoInt.in_range 2) by (vm_compute; intuition discriminate).
  assert (Hk : (1 <= 2)%nat) by lia.
  assert (Hl : (2 <= length [1; 2; 3; 4; 5]%Z)%nat) by (simpl; lia).
  assert (Hkn : (Z.of_nat 2 <= 2)%Z) by (simpl; lia).
  split; [exact Hn |]. split; [exact Hk |]. split; [exact Hl |].
  split; [exact Hkn |].
  exact (Take_stop_visits 0%nat [1; 2; 3; 4; 5]%Z 2 2 Hn Hk Hl Hkn).
Defined.

Lemma Take_source_visits_witness :
  GoInt.in_range 0 /\
  visits 0 (trace (drive (Take (Recording 0%nat [1; 2; 3]%Z) 0)
                         always tt)) = 1%nat /\
  collect (Take (Recording 0%nat [1; 2; 3]%Z) 0) = [].
Proof.
  assert (Hn : GoInt.in_range 0) by (vm_compute; intuition discriminate).
  split; [exact Hn |].
  apply (proj2 (Take_source_visits 0%nat [1; 2; 3]%Z 0 Hn));
    [lia | discriminate].
Defined.

Lemma Filter_keeps_protocol_witness :
  obedient (Values (E:=nat) [1; 2; 3; 4; 5; 6]%Z) /\
  outputs (trace (drive (Filter (Values [1; 2; 3; 4; 5; 6]%Z) Z.even)
                        (stop_at 2) O)) = [2; 4]%Z.
Proof.
  assert (Hs : obedient (Values (E:=nat) [1; 2; 3; 4; 5; 6]%Z))
    by (simpl; tauto).
  split; [exact Hs |].
  exact (proj1 (proj2 (Filter_keeps_protocol
                         (Values [1; 2; 3; 4; 5; 6]%Z) Z.even (stop_at 2) O
                         Hs))).
Defined.

Lemma Map_keeps_protocol_witness :
  obedient (Values (E:=nat) [1; 2; 3; 4; 5]%Z) /\
  outputs (trace (drive (Map (Values [1; 2; 3; 4; 5]%Z) (fun n => n * n)%Z)
                        (stop_at 3) O)) = [1; 4; 9]%Z.
Proof.
  assert (Hs : obedient (Values (E:=nat) [1; 2; 3; 4; 5]%Z))
    by (simpl; tauto).
  split; [exact Hs |].
  exact (proj1 (proj2 (Map_keeps_protocol
                         (Values [1; 2; 3; 4; 5]%Z) (fun n => n * n)%Z
                         (stop_at 3) O Hs))).
Defined.

Lemma Take_keeps_protocol_witness :
  obedient (Values (E:=nat) [1; 2; 3; 4; 5]%Z) /\ GoInt.in_range 4 /\
  outputs (trace (drive (Take (Values [1; 2; 3; 4; 5]%Z) 4)
                        (stop_at 2) O)) = [1; 2]%Z.
Proof.
  assert (Hs : obedient (Values (E:=nat) [1; 2; 3; 4; 5]%Z))
    by (simpl; tauto).
  assert (Hn : GoInt.in_range 4) by (vm_compute; intuition discriminate).
  split; [exact Hs |]. split; [exact Hn |].
  exact (proj1 (proj2 (Take_keeps_protocol
                         (Values [1; 2; 3; 4; 5]%Z) 4 (stop_at 2) O
                         Hs Hn))).
Defined.

Lemma FilterMap_keeps_protocol_witness :
  obedient (Values (E:=nat) [1; 2; 3; 4; 5]%Z) /\
  outputs (trace (drive (FilterMap (Values [1; 2; 3; 4; 5]%Z)
                                   square_unless_3)
                        (stop_at 3) O)) = [1; 4; 16]%Z.
Proof.
  assert (Hs : obedient (Values (E:=nat) [1; 2; 3; 4; 5]%Z))
    by (simpl; tauto).
  split; [exact Hs |].
  exact (proj1 (proj2 (FilterMap_keeps_protocol
                         (Values [1; 2; 3; 4; 5]%Z) square_unless_3
                         (stop_at 3) O Hs))).
Defined.

Lemma Reduce_is_left_fold_witness :
  completes (Values [1; 2; 3; 4; 5]%Z) /\
  outcome (Reduce (E:=nat) (Values [1; 2; 3; 4; 5]%Z) 0%Z Z.add)
    = Done 15%Z.
Proof.
  assert (Hs : completes (Values [1; 2; 3; 4; 5]%Z)) by (simpl; tauto).
  split; [exact Hs |].
  exact (proj1 (Reduce_is_left_fold (Values [1; 2; 3; 4; 5]%Z) 0%Z Z.add
                  Hs)).
Defined.

End LoopFacts.

(** ** FlatMap, Flatten and Zip under any consumer *)

Module NestedFacts.

Section Nested.

Context {T R : Type}.

Lemma obedient_FlatMap (s : Seq nat T) (t : T -> Seq nat R) :
  obedient s -> (forall x, In x (elements s) -> obedient (t x)) ->
  obedient (FlatMap s t).
Proof.
  intros Hs Ht. apply obedient_loop, polite_for_range_on; auto.
  intros v Hv []. cbv zeta. apply polite_for_range; auto.
  intros y []. apply polite_pass.
Qed.

(** [FlatMap] keeps the protocol: over an obedient source and obedient
    inner sequences it is obedient, and any consumer is served the
    concatenation of the inner sequences up to the element on which it
    answers stop, after which the drive returns. *)
Theorem FlatMap_keeps_protocol {C : Type} (s : Seq nat T)
    (transform : T -> Seq nat R) (consumer : R -> C -> bool * C) (c : C)
    (Hs : obedient s)
    (Ht : forall x, In x (collect s) -> obedient (transform x)) :
  obedient (FlatMap s transform) /\
  outputs (trace (drive (FlatMap s transform) consumer c))
    = fst (serve consumer
             (flat_map (fun x => collect (transform x)) (collect s)) c) /\
  outcome (drive (FlatMap s transform) consumer c)
    = Done (snd (serve consumer
                   (flat_map (fun x => collect (transform x)) (collect s))
                   c)).
Proof.
  assert (Hob : obedient (FlatMap s transform)).
  { apply obedient_FlatMap; auto.
    intros x Hx. apply Ht. now rewrite collect_elements. }
  split; [exact Hob |].
  apply obedient_served; [exact Hob |].
  apply FlatMapFacts.collect_FlatMap.
  apply Forall_forall. intros x Hx. now apply obedient_completes, Ht.
Qed.

End Nested.

Section Flatten.

Context {T Other : Type}.

Lemma obedient_Flatten (s : Seq nat (any nat T Other)) :
  obedient s -> (forall it, In it (elements s) -> item_obedient it) ->
  obedient (Flatten s).
Proof.
  intros Hs Hit. apply obedient_loop, polite_for_range_on; auto.
  intros item Hin []. specialize (Hit item Hin).
  destruct item as [v | [v |] | l | [l |] | v | o]; simpl in Hit.
  - apply polite_for_range; auto. intros y []. apply polite_pass.
  - apply polite_for_range; auto. intros y []. apply polite_pass.
  - exact I.
  - apply polite_for_slice. intros y []. apply polite_pass.
  - apply polite_for_slice. intros y []. apply polite_pass.
  - exact I.
  - apply polite_pass.
  - exact I.
Qed.

Lemma item_obedient_completes (item : any nat T Other) :
  item_obedient item -> item_completes item.
Proof.
  destruct item as [v | [v |] | l | [l |] | v | o]; simpl; auto;
    apply obedient_completes.
Qed.

Lemma collect_Flatten (s : Seq nat (any nat T Other)) :
  Forall item_completes (collect s) ->
  collect (Flatten s) = flat_map item_elements (collect s).
Proof.
  induction s as [u | r | e k IH | item k IH]; intros Hs.
  - reflexivity.
  - reflexivity.
  - rewrite collect_Log in Hs. rewrite collect_Log.
    change (collect (Flatten (Log e k))) with (collect (Flatten k)).
    now apply IH.
  - rewrite collect_Yld in Hs. rewrite collect_Yld.
    inversion Hs as [| ? ? Hitem Hrest]; subst.
    rewrite FlattenFacts.Flatten_Yld by assumption.
    simpl flat_map. f_equal. now apply (IH true).
Qed.

(** [Flatten] keeps the protocol: over an obedient source whose nested
    sequences are obedient it is obedient, and any consumer is served the
    items' elements up to the one on which it answers stop, whichever kind
    of item that element is in, after which the drive returns. *)
Theorem Flatten_keeps_protocol {C : Type} (s : Seq nat (any nat T Other))
    (consumer : T -> C -> bool * C) (c : C) (Hs : obedient s)
    (Hit : Forall item_obedient (collect s)) :
  obedient (Flatten s) /\
  outputs (trace (drive (Flatten s) consumer c))
    = fst (serve consumer (flat_map item_elements (collect s)) c) /\
  outcome (drive (Flatten s) consumer c)
    = Done (snd (serve consumer (flat_map item_elements (collect s)) c)).
Proof.
  assert (Hob : obedient (Flatten s)).
  { apply obedient_Flatten; auto.
    intros it Hin. rewrite <- collect_elements in Hin.
    now apply (proj1 (Forall_forall _ _) Hit). }
  split; [exact Hob |].
  apply obedient_served; [exact Hob |].
  apply collect_Flatten.
  apply Forall_forall. intros it Hin.
  apply item_obedient_completes.
  now apply (proj1 (Forall_forall _ _) Hit).
Qed.

End Flatten.

Section Zip.

Context {T U : Type}.







End Zip.

Lemma FlatMap_keeps_protocol_witness :
  obedient (Values (E:=nat) [[1; 2]; []; [3; 4]; [5; 6]]%Z) /\
  (forall x, In x (collect (Values [[1; 2]; []; [3; 4]; [5; 6]]%Z)) ->
     obedient (Values (E:=nat) x)) /\
  outputs (trace (drive
      (FlatMap (Values [[1; 2]; []; [3; 4]; [5; 6]]%Z) (fun x => Values x))
      (stop_at 3) O)) = [1; 2; 3]%Z.
Proof.
  assert (Hs : obedient (Values (E:=nat) [[1; 2]; []; [3; 4]; [5; 6]]%Z))
    by (simpl; tauto).
  assert (Ht : forall x,
    In x (collect (Values [[1; 2]; []; [3; 4]; [5; 6]]%Z)) ->
    obedient (Values (E:=nat) x))
    by (intros x _; apply obedient_Values).
  split; [exact Hs |]. split; [exact Ht |].
  exact (proj1 (proj2 (FlatMap_keeps_protocol
                         (Values [[1; 2]; []; [3; 4]; [5; 6]]%Z)
                         (fun x => Values x) (stop_at 3) O Hs Ht))).
Defined.

Lemma Flatten_keeps_protocol_witness :
  obedient (Values (E:=nat) mixed_values) /\
  Forall item_obedient (collect (Values mixed_values)) /\
  outputs (trace (drive (Flatten (Values mixed_values)) (stop_at 8) O))
    = [1; 2; 3; 4; 5; 6; 7; 8]%Z.
Proof.
  assert (Hs : obedient (Values (E:=nat) mixed_values))
    by (unfold mixed_values; simpl; tauto).
  assert (Hit : Forall item_obedient (collect (Values mixed_values)))
    by (unfold mixed_values; simpl; repeat constructor).
  split; [exact Hs |]. split; [exact Hit |].
  exact (proj1 (proj2 (Flatten_keeps_protocol (Values mixed_values)
                         (stop_at 8) O Hs Hit))).
Defined.


End NestedFacts.

(** ** The keyed variants *)

Module KeyedFacts.

Section Keyed.

Context {K V C : Type}.

(** [Filter2] behaves as [Filter] on pairs under every consumer (the same
    visits, the same deliveries, the same outcome), and hands over the
    pairs that satisfy the predicate. *)
Theorem Filter2_filters_pairs (s : Seq2 nat K V) (pred : K -> V -> bool)
    (consumer : K * V -> C -> bool * C) (c : C) :
  trace (drive (Filter2 s pred) consumer c)
    = trace (drive (Filter s (on_pair pred)) consumer c) /\
  outcome (drive (Filter2 s pred) consumer c)
    = outcome (drive (Filter s (on_pair pred)) consumer c) /\
  collect (Filter2 s pred) = filter (on_pair pred) (collect s).
Proof.
  destruct (drive_sim _ _ consumer c (sim_Filter2 s pred)) as [Ht Ho].
  repeat split; auto.
  rewrite (collect_sim _ _ (sim_Filter2 s pred)).
  apply FilterFacts.collect_Filter.
Qed.

(** [Map2] behaves as [Map] on pairs under every consumer, and hands over
    the transformed pair of every pair, in order. *)
Theorem Map2_maps_pairs {K2 V2 : Type} (s : Seq2 nat K V)
    (transform : K -> V -> K2 * V2)
    (consumer : K2 * V2 -> C -> bool * C) (c : C) :
  trace (drive (Map2 s transform) consumer c)
    = trace (drive (Map s (on_pair transform)) consumer c) /\
  outcome (drive (Map2 s transform) consumer c)
    = outcome (drive (Map s (on_pair transform)) consumer c) /\
  collect (Map2 s transform) = map (on_pair transform) (collect s).
Proof.
  destruct (drive_sim _ _ consumer c (sim_Map2 s transform)) as [Ht Ho].
  repeat split; auto.
  rewrite (collect_sim _ _ (sim_Map2 s transform)).
  apply LoopFacts.collect_Map.
Qed.

(** [Take2] behaves as [Take] on pairs under every consumer, and hands
    over the first [n] pairs. *)
Theorem Take2_takes_pairs (s : Seq2 nat K V) (n : Z)
    (consumer : K * V -> C -> bool * C) (c : C) (Hn : GoInt.in_range n) :
  trace (drive (Take2 s n) consumer c)
    = trace (drive (Take s n) consumer c) /\
  outcome (drive (Take2 s n) consumer c)
    = outcome (drive (Take s n) consumer c) /\
  collect (Take2 s n) = firstn (Z.to_nat n) (collect s).
Proof.
  destruct (drive_sim _ _ consumer c (sim_Take2 s n)) as [Ht Ho].
  repeat split; auto.
  rewrite (collect_sim _ _ (sim_Take2 s n)).
  now apply SkipFacts.collect_Take.
Qed.

(** [Skip2] behaves as [Skip] on pairs under every consumer, and hands
    over the pairs after the first [n]. *)
Theorem Skip2_skips_pairs (s : Seq2 nat K V) (n : Z)
    (consumer : K * V -> C -> bool * C) (c : C)
    (Hlen : (Z.of_nat (length (collect s)) <= GoInt.max_int)%Z) :
  trace (drive (Skip2 s n) consumer c)
    = trace (drive (Skip s n) consumer c) /\
  outcome (drive (Skip2 s n) consumer c)
    = outcome (drive (Skip s n) consumer c) /\
  collect (Skip2 s n) = skipn (Z.to_nat n) (collect s).
Proof.
  destruct (drive_sim _ _ consumer c (sim_Skip2 s n)) as [Ht Ho].
  repeat split; auto.
  rewrite (collect_sim _ _ (sim_Skip2 s n)).
  now apply SkipFacts.collect_Skip.
Qed.

(** [FilterMap2] behaves as [FilterMap] on pairs under every consumer, and
    hands over the resulting pair of every pair on which the transform
    returns no error. *)
Theorem FilterMap2_keeps_successes {K2 V2 error : Type} (s : Seq2 nat K V)
    (transform : K -> V -> K2 * V2 * option error)
    (consumer : K2 * V2 -> C -> bool * C) (c : C) :
  trace (drive (FilterMap2 s transform) consumer c)
    = trace (drive (FilterMap s (fallible_on_pair transform)) consumer c) /\
  outcome (drive (FilterMap2 s transform) consumer c)
    = outcome (drive (FilterMap s (fallible_on_pair transform))
                     consumer c) /\
  collect (FilterMap2 s transform)
    = flat_map (kept (fallible_on_pair transform)) (collect s).
Proof.
  destruct (drive_sim _ _ consumer c (sim_FilterMap2 s transform))
    as [Ht Ho].
  repeat split; auto.
  rewrite (collect_sim _ _ (sim_FilterMap2 s transform)).
  apply FilterMapFacts.collect_FilterMap.
Qed.

(** [FlatMap2] behaves as [FlatMap] on pairs under every consumer, and
    hands over the concatenation of the inner keyed sequences. *)
Theorem FlatMap2_concatenates {K2 V2 : Type} (s : Seq2 nat K V)
    (transform : K -> V -> Seq2 nat K2 V2)
    (consumer : K2 * V2 -> C -> bool * C) (c : C)
    (Ht : Forall (fun kv => completes (on_pair transform kv)) (collect s)) :
  trace (drive (FlatMap2 s transform) consumer c)
    = trace (drive (FlatMap s (on_pair transform)) consumer c) /\
  outcome (drive (FlatMap2 s transform) consumer c)
    = outcome (drive (FlatMap s (on_pair transform)) consumer c) /\
  collect (FlatMap2 s transform)
    = flat_map (fun kv => collect (on_pair transform kv)) (collect s).
Proof.
  destruct (drive_sim _ _ consumer c (sim_FlatMap2 s transform))
    as [Htr Ho].
  repeat split; auto.
  rewrite (collect_sim _ _ (sim_FlatMap2 s transform)).
  now apply FlatMapFacts.collect_FlatMap.
Qed.

End Keyed.

Lemma Take2_takes_pairs_witness :
  GoInt.in_range 2 /\
  collect (Take2 (Values [(1, 10); (2, 20); (3, 30)]%Z) 2)
    = [(1, 10); (2, 20)]%Z.
Proof.
  assert (Hn : GoInt.in_range 2) by (vm_compute; intuition discriminate).
  split; [exact Hn |].
  exact (proj2 (proj2 (Take2_takes_pairs
                         (Values [(1, 10); (2, 20); (3, 30)]%Z) 2
                         always tt Hn))).
Defined.

Lemma Skip2_skips_pairs_witness :
  (Z.of_nat (length (collect (Values [(1, 10); (2, 20); (3, 30)]%Z)))
     <= GoInt.max_int)%Z /\
  collect (Skip2 (Values [(1, 10); (2, 20); (3, 30)]%Z) 2) = [(3, 30)]%Z.
Proof.
  assert (Hlen :
    (Z.of_nat (length (collect (Values [(1, 10); (2, 20); (3, 30)]%Z)))
       <= GoInt.max_int)%Z) by (vm_compute; discriminate).
  split; [exact Hlen |].
  exact (proj2 (proj2 (Skip2_skips_pairs
                         (Values [(1, 10); (2, 20); (3, 30)]%Z) 2
                         always tt Hlen))).
Defined.

Lemma FlatMap2_concatenates_witness :
  Forall (fun kv => completes
            (on_pair (fun k v => Values [(k, v); (v, k)]) kv))
         (collect (Values [(1, 10); (2, 20)]%Z)) /\
  collect (FlatMap2 (Values [(1, 10); (2, 20)]%Z)
             (fun k v => Values [(k, v); (v, k)]))
    = [(1, 10); (10, 1); (2, 20); (20, 2)]%Z.
Proof.
  assert (Ht : Forall (fun kv => completes
                 (on_pair (fun k v => Values [(k, v); (v, k)]) kv))
               (collect (Values [(1, 10); (2, 20)]%Z)))
    by (simpl; repeat constructor).
  split; [exact Ht |].
  exact (proj2 (proj2 (FlatMap2_concatenates
                         (Values [(1, 10); (2, 20)]%Z)
                         (fun k v => Values [(k, v); (v, k)])
                         always tt Ht))).
Defined.

End KeyedFacts.

(** ** The examples of the documentation *)

Module Examples.

Example Filter_example :
  collect (Filter (Values [1; 2; 3; 4; 5; 6; 7; 8; 9; 10]%Z) Z.even)
    = [2; 4; 6; 8; 10]%Z.
Proof. reflexivity. Qed.

Example Map_example :
  collect (Map (Values [1; 2; 3; 4; 5]%Z) (fun n => n * n)%Z)
    = [1; 4; 9; 16; 25]%Z.
Proof. reflexivity. Qed.

Example Reduce_example :
  outcome (Reduce (E:=nat) (Values [1; 2; 3; 4; 5]%Z) 0%Z Z.add) = Done 15%Z.
Proof. reflexivity. Qed.

Example Take_example :
  collect (Take (Values [1; 2; 3; 4; 5; 6; 7; 8; 9; 10]%Z) 5)
    = [1; 2; 3; 4; 5]%Z.
Proof. reflexivity. Qed.

Example Skip_example :
  collect (Skip (Values [1; 2; 3; 4; 5; 6; 7; 8; 9; 10]%Z) 5)
    = [6; 7; 8; 9; 10]%Z.
Proof. reflexivity. Qed.

Example FlatMap2_example :
  collect (FlatMap2 (Values [(1, 10); (2, 20)]%Z)
             (fun k v => Values [(k, v); (v, k)]))
    = [(1, 10); (10, 1); (2, 20); (20, 2)]%Z.
Proof. reflexivity. Qed.

(** [Take] over a recording source of five elements with limit two: the
    source is visited three times, the consumer receives two elements. *)
Example Take_third_visit :
  trace (drive (Take (Recording 0%nat [1; 2; 3; 4; 5]%Z) 2) always tt)
    = [Visit 0; Out 1%Z; Visit 0; Out 2%Z; Visit 0].
Proof. reflexivity. Qed.

(** [Zip] stopped by the consumer at its second pair. *)
Example Zip_stopped_at_2 :
  trace (drive (Zip 6 (Recording 1%nat [1; 2; 3; 4; 5]%Z)
                      (Recording 2%nat ["a"; "b"; "c"]%string))
               (stop_at 2) O)
    = [Visit 1; Visit 2; Out (1%Z, "a"%string);
       Visit 1; Visit 2; Out (2%Z, "b"%string)].
Proof. reflexivity. Qed.

(** [Zip] run to its end when the second source is the shorter one. *)
Example Zip_second_shorter :
  trace (drive (Zip 6 (Recording 1%nat [1; 2; 3; 4; 5]%Z)
                      (Recording 2%nat ["a"; "b"; "c"]%string))
               always tt)
    = [Visit 1; Visit 2; Out (1%Z, "a"%string);
       Visit 1; Visit 2; Out (2%Z, "b"%string);
       Visit 1; Visit 2; Out (3%Z, "c"%string);
       Visit 1].
Proof. reflexivity. Qed.

End Examples.
